(** * SentinelGuard backend: alert intake, JSON store and rate limiter

    A shallow embedding of [SentinelGuard/backend/index.js].  The file
    follows the source from top to bottom: the alerts file helpers
    ([initAlertsFile], [readAlertsSafe], [writeAlertsSafe]), the
    in-memory rate limiter ([cleanupRateLimitMap], [rateLimiter]) and
    the [POST /api/alert] and [GET /api/alerts] handlers. *)

From stdpp Require Import gmap strings list fin_maps.
From Stdlib Require Import ZArith.

Local Open Scope Z_scope.
Set Warnings "-register-all".

(** ** Rate limiter *)

Module RateLimit.

(** The values of [rateLimitMap]: [{ count, start }].  [start] is a
    [Date.now()] reading in milliseconds. *)
Record entry : Type := Entry { count : Z; start : Z }.

(** [rateLimitMap] is a plain object keyed by the hex digest of the
    caller's address.  Such a key never names a member of
    [Object.prototype], so a lookup is a lookup of an own property. *)
Abbreviation table := (gmap string entry).

Definition RATE_LIMIT_WINDOW_MS : Z := 60 * 1000.
Definition MAX_REQUESTS_PER_WINDOW : Z := 20.

(** [now - entry.start > RATE_LIMIT_WINDOW_MS] *)
Definition expired (now : Z) (e : entry) : bool :=
  bool_decide (now - start e > RATE_LIMIT_WINDOW_MS).

(** The [for (const key of Object.keys(rateLimitMap))] loop over a
    snapshot [keys] of the key list.  Every key of the snapshot is
    still present when its turn comes (the body deletes only the key it
    is visiting, and [Object.keys] lists no key twice), so the read
    [rateLimitMap[key]] is defined; the [None] branch keeps the
    function total. *)
Fixpoint cleanup_loop (now : Z) (keys : list string) (m : table) : table :=
  match keys with
  | [] => m
  | key :: rest =>
      match m !! key with
      | Some e =>
          if expired now e
          then cleanup_loop now rest (delete key m)
          else cleanup_loop now rest m
      | None => cleanup_loop now rest m
      end
  end.

(** [Object.keys(rateLimitMap)] *)
Definition Object_keys (m : table) : list string := (map_to_list m).*1.

Definition cleanupRateLimitMap (now : Z) (m : table) : table :=
  cleanup_loop now (Object_keys m) m.

(** What the middleware does with the request: call [next()] or answer
    [429]. *)
Inductive verdict : Type := next | too_many_requests.

Definition allowed (v : verdict) : bool :=
  match v with next => true | too_many_requests => false end.

(** The body of [rateLimiter] once [ip = hashIp(req.ip)] and
    [now = Date.now()] are known. *)
Definition rateLimit (ip : string) (now : Z) (m : table) : verdict * table :=
  let m := cleanupRateLimitMap now m in
  match m !! ip with
  | None => (next, <[ip := Entry 1 now]> m)
  | Some e =>
      if expired now e then (next, <[ip := Entry 1 now]> m)
      else if bool_decide (count e >= MAX_REQUESTS_PER_WINDOW)
      then (too_many_requests, m)
      else (next, <[ip := Entry (count e + 1) (start e)]> m)
  end.

(** The case analysis of the specification, read on the table as it is
    when the call arrives (no sweep). *)
Definition rateLimit_spec (key : string) (now : Z) (m : table) : bool * table :=
  match m !! key with
  | None => (true, <[key := Entry 1 now]> m)
  | Some e =>
      if bool_decide (now - start e > RATE_LIMIT_WINDOW_MS)
      then (true, <[key := Entry 1 now]> m)
      else if bool_decide (count e >= MAX_REQUESTS_PER_WINDOW)
      then (false, m)
      else (true, <[key := Entry (count e + 1) (start e)]> m)
  end.

(** A run of calls, oldest first, each a key and a clock reading. *)
Fixpoint rateLimit_all (calls : list (string * Z)) (m : table)
  : list verdict * table :=
  match calls with
  | [] => ([], m)
  | (ip, now) :: rest =>
      let '(v, m1) := rateLimit ip now m in
      let '(vs, m2) := rateLimit_all rest m1 in
      (v :: vs, m2)
  end.

End RateLimit.

(** ** JSON values *)

Module Json.

(** The numbers [JSON.parse] produces.  A finite double other than
    [-0] is carried by a code that stands for it ([0] for [+0]): no code
    path of the service computes with one, and [JSON.stringify] writes
    it as text that parses back to the same double.  [-0] (from the
    text [-0]) and the two infinities (from a literal that overflows,
    such as [1e999]) are kept apart, because [JSON.stringify] does not
    write them back as they are. *)
Inductive number : Type :=
  | Finite (code : Z)
  | MinusZero
  | Infinity (negative : bool).

(** What [JSON.parse] produces.  An object is the list of its own
    properties in enumeration order. *)
Inductive JSON : Type :=
  | JNull
  | JBool (b : bool)
  | JNum (n : number)
  | JStr (s : string)
  | JArr (items : list JSON)
  | JObj (props : list (string * JSON)).

(** [JSON.parse(JSON.stringify(v))]: the value that the text written
    for [v] reads as.  A non-finite number is written [null], [-0] is
    written [0], and everything else is written so that it reads back
    as it was. *)
Fixpoint as_written (v : JSON) : JSON :=
  match v with
  | JNum (Infinity _) => JNull
  | JNum MinusZero => JNum (Finite 0)
  | JArr items => JArr (map as_written items)
  | JObj props =>
      JObj (map (λ kv, match kv with (k, x) => (k, as_written x) end) props)
  | _ => v
  end.

(** A value that holds neither [-0] nor an infinity. *)
Fixpoint plain (v : JSON) : bool :=
  match v with
  | JNum (Finite _) => true
  | JNum _ => false
  | JArr items => forallb plain items
  | JObj props => forallb (λ kv, match kv with (_, x) => plain x end) props
  | _ => true
  end.

(** The value of a property of an object literal; [None] is
    [undefined]. *)
Fixpoint own_prop (name : string) (props : list (string * JSON))
  : option JSON :=
  match props with
  | [] => None
  | (k, x) :: rest => if String.eqb k name then Some x else own_prop name rest
  end.

(** [v[name]] for the names the handler reads ([type], [message],
    [severity]): only an object can carry them, an array and the
    prototypes do not. *)
Definition get (v : JSON) (name : string) : option JSON :=
  match v with
  | JObj props => own_prop name props
  | _ => None
  end.

(** [obj[name] = x] on the property list: an existing property keeps
    its place and takes the new value, a new one goes last. *)
Fixpoint set_prop (name : string) (x : JSON) (props : list (string * JSON))
  : list (string * JSON) :=
  match props with
  | [] => [(name, x)]
  | (k, y) :: rest =>
      if String.eqb k name then (k, x) :: rest
      else (k, y) :: set_prop name x rest
  end.

(** [v[name] = x].  The handler assigns only to a body that passed
    validation, which is an object. *)
Definition assign (v : JSON) (name : string) (x : JSON) : JSON :=
  match v with
  | JObj props => JObj (set_prop name x props)
  | _ => v
  end.

(** [typeof x === 'string'] *)
Definition typeof_string (x : option JSON) : bool :=
  match x with Some (JStr _) => true | _ => false end.

(** [list.includes(x)] for a list of string literals. *)
Definition includes (l : list string) (x : option JSON) : bool :=
  match x with
  | Some (JStr s) => bool_decide (s ∈ l)
  | _ => false
  end.

(** [Array.isArray(v)] *)
Definition Array_isArray (v : JSON) : bool :=
  match v with JArr _ => true | _ => false end.

End Json.

(** ** The alerts file *)

Module Store.
Import Json.

(** The text of a file, up to what [JSON.parse] makes of it: text that
    it rejects, or text that it reads as the value [v]. *)
Inductive content : Type :=
  | Garbled (text : string)
  | Document (v : JSON).

(** [DATA_DIR] and [ALERTS_FILE] on disk: no directory; a directory
    without the file; a path that rejects reads and writes; a regular
    file. *)
Inductive storage : Type :=
  | NoDir
  | NoFile
  | Unreadable
  | File (c : content).

Inductive io_event : Type :=
  | ExistsDir | ExistsFile | Mkdir | Read | Write (c : content).

(** The file system as the service sees it.  [mkdir_ok] and [write_ok]
    say whether the environment lets those calls through; [trace]
    records every [fs] call, latest first. *)
Record disk : Type := Disk {
  store : storage;
  mkdir_ok : bool;
  write_ok : bool;
  trace : list io_event
}.

Inductive exn : Type := IoError | SyntaxError | TypeError.

Inductive result (A : Type) : Type :=
  | Ok (a : A)
  | Throw (e : exn).
Arguments Ok {A} a.
Arguments Throw {A} e.

(** Code that touches the disk and may throw. *)
Definition M (A : Type) : Type := disk → result A * disk.

Definition ret {A} (a : A) : M A := λ d, (Ok a, d).
Definition throw {A} (e : exn) : M A := λ d, (Throw e, d).
Definition bind {A B} (c : M A) (k : A → M B) : M B :=
  λ d, match c d with
       | (Ok a, d1) => k a d1
       | (Throw e, d1) => (Throw e, d1)
       end.
(** [try { c } catch (err) { h err }] *)
Definition try_catch {A} (c : M A) (h : exn → M A) : M A :=
  λ d, match c d with
       | (Ok a, d1) => (Ok a, d1)
       | (Throw e, d1) => h e d1
       end.

Notation "'let!' x ':=' c 'in' k" := (bind c (λ x, k))
  (at level 10, x name, c at level 100, k at level 200, only parsing).
Notation "'run!' c 'in' k" := (bind c (λ _, k))
  (at level 10, c at level 100, k at level 200, only parsing).

Definition logged (ev : io_event) (d : disk) : disk :=
  Disk (store d) (mkdir_ok d) (write_ok d) (ev :: trace d).

Definition with_store (st : storage) (d : disk) : disk :=
  Disk st (mkdir_ok d) (write_ok d) (trace d).

(** [fs.existsSync(DATA_DIR)] *)
Definition existsSync_dir : M bool := λ d,
  (Ok (match store d with NoDir => false | _ => true end), logged ExistsDir d).

(** [fs.existsSync(ALERTS_FILE)] *)
Definition existsSync_file : M bool := λ d,
  (Ok (match store d with NoDir | NoFile => false | _ => true end),
   logged ExistsFile d).

(** [fs.mkdirSync(DATA_DIR, { recursive: true })] *)
Definition mkdirSync : M unit := λ d,
  let d := logged Mkdir d in
  if mkdir_ok d
  then (Ok tt, match store d with NoDir => with_store NoFile d | _ => d end)
  else (Throw IoError, d).

(** [fs.writeFileSync(ALERTS_FILE, text)] *)
Definition writeFileSync (text : content) : M unit := λ d,
  let d := logged (Write text) d in
  match store d with
  | NoDir | Unreadable => (Throw IoError, d)
  | NoFile | File _ =>
      if write_ok d then (Ok tt, with_store (File text) d)
      else (Throw IoError, d)
  end.

(** [fs.readFileSync(ALERTS_FILE, 'utf8')] *)
Definition readFileSync : M content := λ d,
  let d := logged Read d in
  match store d with
  | File c => (Ok c, d)
  | _ => (Throw IoError, d)
  end.

Definition JSON_parse (text : content) : M JSON :=
  match text with
  | Garbled _ => throw SyntaxError
  | Document v => ret v
  end.

(** [JSON.stringify(v, null, 2)]: text that reads as [as_written v]. *)
Definition JSON_stringify (v : JSON) : content := Document (as_written v).

(** The literal ['[]']. *)
Definition empty_array_text : content := Document (JArr []).

Definition reset_alerts_file : M unit :=
  let! dir := existsSync_dir in
  run! (if negb dir then mkdirSync else ret tt) in
  writeFileSync empty_array_text.

Definition initAlertsFile : M unit :=
  try_catch
    (let! dir := existsSync_dir in
     run! (if negb dir then mkdirSync else ret tt) in
     let! file := existsSync_file in
     if negb file then writeFileSync empty_array_text
     else
       let! content := readFileSync in
       let! parsed := JSON_parse content in
       if negb (Array_isArray parsed)
       then writeFileSync empty_array_text
       else ret tt)
    (λ err, try_catch reset_alerts_file (λ innerErr, ret tt)).

Definition readAlertsSafe : M JSON :=
  try_catch
    (let! data := readFileSync in
     JSON_parse data)
    (λ err, ret (JArr [])).

Definition writeAlertsSafe (alerts : JSON) : M bool :=
  try_catch
    (run! writeFileSync (JSON_stringify alerts) in
     ret true)
    (λ err, ret false).

(** [existing.push(alert)]: a value read from JSON has a [push] method
    only if it is an array; on anything else the call is a
    [TypeError]. *)
Definition push (existing alert : JSON) : M JSON :=
  match existing with
  | JArr items => ret (JArr (items ++ [alert]))
  | _ => throw TypeError
  end.

(** The read, push and write of the [POST] handler. *)
Definition appendOne (alert : JSON) : M bool :=
  let! existing := readAlertsSafe in
  let! existing := push existing alert in
  writeAlertsSafe existing.

(** The shapes a file's text can have for [initAlertsFile]: text that
    parses to something other than an array, and text that is not a
    JSON array for either reason. *)
Definition parses_to_non_array (c : content) : bool :=
  match c with
  | Garbled _ => false
  | Document v => negb (Array_isArray v)
  end.

Definition corrupt (c : content) : bool :=
  match c with
  | Garbled _ => true
  | Document v => negb (Array_isArray v)
  end.

(** The records [readAlertsSafe] finds in a file that is not of the
    first shape. *)
Definition items_of (c : content) : list JSON :=
  match c with
  | Document (JArr items) => items
  | _ => []
  end.

End Store.

(** ** The HTTP handlers *)

Module Service.
Import Json Store RateLimit.

Inductive response : Type :=
  | AlertSaved                (* 200 { status: 'alert saved' } *)
  | Alerts (body : JSON)      (* 200 with what [readAlertsSafe] gave *)
  | InvalidInput              (* 400 *)
  | TooManyRequests           (* 429 *)
  | SaveFailed                (* 500 { error: 'Failed to save alert' } *)
  | Uncaught (e : exn).       (* the handler threw *)

Definition allowedSeverities : list string := ["LOW"; "MEDIUM"; "HIGH"]%string.

(** The condition of the [if] that answers 400. *)
Definition rejected (alert : JSON) : bool :=
  negb (typeof_string (get alert "type"))
  || negb (typeof_string (get alert "message"))
  || negb (includes allowedSeverities (get alert "severity")).

(** The [POST /api/alert] callback; [iso] is
    [new Date().toISOString()]. *)
Definition post_alert (body : JSON) (iso : string) : M response :=
  let alert := body in
  if rejected alert then ret InvalidInput
  else
    let alert := assign alert "time" (JStr iso) in
    let! success := appendOne alert in
    if negb success then ret SaveFailed
    else ret AlertSaved.

(** The process: the limiter's table and the disk. *)
Record server : Type := Server {
  rateLimitMap : table;
  fs : disk
}.

(** A request: [req.ip] and the body that [express.json()] parsed,
    an object or an array. *)
Record request : Type := Request {
  req_ip : string;
  req_body : JSON
}.

Definition answer (r : result response) : response :=
  match r with
  | Ok resp => resp
  | Throw e => Uncaught e
  end.

Section Routes.
(** [hashIp]: the SHA-256 hex digest of the address. *)
Variable hashIp : string → string.

Definition rateLimiter (req : request) (now : Z) (m : table)
  : verdict * table :=
  rateLimit (hashIp (req_ip req)) now m.

(** [app.post('/api/alert', rateLimiter, ...)] *)
Definition post_api_alert (req : request) (now : Z) (iso : string)
    (s : server) : response * server :=
  match rateLimiter req now (rateLimitMap s) with
  | (too_many_requests, m) => (TooManyRequests, Server m (fs s))
  | (next, m) =>
      let '(r, d) := post_alert (req_body req) iso (fs s) in
      (answer r, Server m d)
  end.

(** [app.get('/api/alerts', ...)] *)
Definition get_api_alerts (s : server) : response * server :=
  let '(r, d) := readAlertsSafe (fs s) in
  (answer (match r with Ok v => Ok (Alerts v) | Throw e => Throw e end),
   Server (rateLimitMap s) d).
End Routes.

(** The record a submission added to the file: the last element of the
    array on disk once the handler has answered [alert saved]. *)
Definition persisted_record (out : response * server) : option JSON :=
  match out.1, store (fs out.2) with
  | AlertSaved, File (Document (JArr items)) => last items
  | _, _ => None
  end.

(** A string other than the empty one. *)
Definition nonempty_string (x : option JSON) : bool :=
  match x with
  | Some (JStr s) => negb (String.eqb s EmptyString)
  | _ => false
  end.

End Service.

(** ** The process *)

Module Run.
Import Json Store RateLimit Service.

(** Startup: [const rateLimitMap = {}] and the call [initAlertsFile()]
    made before the routes are mounted. *)
Definition startup (d : disk) : server := Server ∅ (initAlertsFile d).2.

(** One [POST /api/alert] as the event loop serves it: the request and
    the readings of [Date.now()] and [new Date().toISOString()] taken
    while it is served. *)
Record call : Type := Call {
  call_req : request;
  call_now : Z;
  call_iso : string
}.

(** The object the handler pushes for a call: the body after
    [alert.time = ...]. *)
Definition stamped (c : call) : JSON :=
  assign (req_body (call_req c)) "time" (JStr (call_iso c)).

Section Serve.
Variable hashIp : string → string.

(** Requests are served one after the other, each to completion. *)
Fixpoint serve (calls : list call) (s : server) : list response * server :=
  match calls with
  | [] => ([], s)
  | c :: rest =>
      let '(r, s1) :=
        post_api_alert hashIp (call_req c) (call_now c) (call_iso c) s in
      let '(rs, s2) := serve rest s1 in
      (r :: rs, s2)
  end.

(** What the limiter sees of a run: the key and the clock of each
    call. *)
Definition limiter_calls (calls : list call) : list (string * Z) :=
  map (λ c, (hashIp (req_ip (call_req c)), call_now c)) calls.
End Serve.

(** The answer to a call given the limiter's verdict, when the file
    reads as an array and the write goes through. *)
Definition healthy_answer (c : call) (v : verdict) : response :=
  match v with
  | too_many_requests => TooManyRequests
  | next => if rejected (req_body (call_req c)) then InvalidInput
            else AlertSaved
  end.

(** The records a call contributes to the file, given its answer. *)
Definition saved (c : call) (r : response) : list JSON :=
  match r with
  | AlertSaved => [stamped c]
  | _ => []
  end.

(** The array on disk after requests that added the records [new] to a
    file that held [items]: each save writes the whole array anew, so
    once a record has been added every record is as [JSON.stringify]
    writes it; with nothing added the file is not written at all. *)
Definition rewritten (items new : list JSON) : list JSON :=
  match new with
  | [] => items
  | _ => map as_written (items ++ new)
  end.

(** The records [initAlertsFile] keeps: those of a file that already
    holds an array. *)
Definition kept (st : storage) : list JSON :=
  match st with
  | File c => items_of c
  | _ => []
  end.

(** The answer is the limiter's 429. *)
Definition refused (r : response) : bool :=
  match r with
  | TooManyRequests => true
  | _ => false
  end.

(** The disk refuses [writeFileSync(ALERTS_FILE, ...)]. *)
Definition write_refused (d : disk) : bool :=
  match store d with
  | NoDir | Unreadable => true
  | NoFile | File _ => negb (write_ok d)
  end.

(** The file, if there and readable, does not hold JSON for something
    other than an array. *)
Definition reads_as_array (st : storage) : bool :=
  match st with
  | File c => negb (parses_to_non_array c)
  | _ => true
  end.

(** The names of an object's properties, in order. *)
Definition keys (props : list (string * JSON)) : list string := props.*1.

(** The [fs] calls in a trace that change the disk. *)
Definition mutating (ev : io_event) : bool :=
  match ev with
  | Mkdir | Write _ => true
  | _ => false
  end.

End Run.

(** ** Sample requests *)

Module Samples.
Import Json Store RateLimit Service.

(** A stand-in for the digest. *)
Definition tagged (ip : string) : string := ("sha256:" ++ ip)%string.

Definition iso0 : string := "2024-01-01T00:00:00.000Z".

(** A disk whose file is the empty array and that takes writes. *)
Definition fresh_disk : disk := Disk (File (Document (JArr []))) true true [].

Definition blank_alert : JSON :=
  JObj [("type", JStr EmptyString); ("message", JStr EmptyString); ("severity", JStr "LOW")]%string.

Definition port_scan : JSON :=
  JObj [("type", JStr "port-scan"); ("message", JStr "5 ports probed");
        ("severity", JStr "HIGH"); ("time", JStr "yesterday");
        ("sensor", JNum (Finite 7))]%string.

(** A well-formed alert with a reading that overflowed: the client sent
    the literal [1e999], which [JSON.parse] reads as infinity. *)
Definition overflow_alert : JSON :=
  JObj [("type", JStr "port-scan"); ("message", JStr "5 ports probed");
        ("severity", JStr "HIGH"); ("sensor", JNum (Infinity false))]%string.

(** A table in which the caller 10.0.0.1 has used up its window. *)
Definition busy_table : table := {[ tagged "10.0.0.1" := Entry 20 0 ]}.

End Samples.

(** * Properties *)

Import Json Store RateLimit Service Samples.

(** ** The sweep *)

Lemma cleanup_loop_lookup now keys (m : table) k :
  cleanup_loop now keys m !! k =
  e ← m !! k; if bool_decide (k ∈ keys) && expired now e then None else Some e.
Proof.
  revert m. induction keys as [|key rest IH]; intros m; simpl.
  - by destruct (m !! k).
  - destruct (m !! key) as [e|] eqn:Hkey.
    + destruct (expired now e) eqn:Hexp; rewrite IH.
      * destruct (decide (k = key)) as [->|Hne].
        -- rewrite lookup_delete_eq, Hkey. simpl.
           rewrite bool_decide_eq_true_2 by apply list_elem_of_here.
           by rewrite Hexp.
        -- rewrite lookup_delete_ne by done.
           destruct (m !! k) as [e'|]; simpl; [|done].
           destruct (expired now e'); [|by rewrite !andb_false_r].
           rewrite !andb_true_r.
           rewrite (bool_decide_ext (k ∈ rest) (k ∈ key :: rest)); [done|].
           rewrite elem_of_cons. tauto.
      * destruct (m !! k) as [e'|] eqn:Hk; simpl; [|done].
        destruct (expired now e') eqn:He'; [|by rewrite !andb_false_r].
        rewrite !andb_true_r.
        rewrite (bool_decide_ext (k ∈ rest) (k ∈ key :: rest)); [done|].
        rewrite elem_of_cons. split; [tauto|].
        intros [->|?]; [congruence | done].
    + rewrite IH. destruct (m !! k) as [e'|] eqn:Hk; simpl; [|done].
      destruct (expired now e') eqn:He'; [|by rewrite !andb_false_r].
      rewrite !andb_true_r.
      rewrite (bool_decide_ext (k ∈ rest) (k ∈ key :: rest)); [done|].
      rewrite elem_of_cons. split; [tauto|].
      intros [->|?]; [congruence | done].
Qed.

Lemma Object_keys_spec (m : table) k e : m !! k = Some e → k ∈ Object_keys m.
Proof.
  intros Hk. unfold Object_keys. apply list_elem_of_fmap.
  exists (k, e). split; [done|]. by apply elem_of_map_to_list.
Qed.

Lemma cleanup_lookup now (m : table) k :
  cleanupRateLimitMap now m !! k =
  e ← m !! k; if expired now e then None else Some e.
Proof.
  unfold cleanupRateLimitMap. rewrite cleanup_loop_lookup.
  destruct (m !! k) as [e|] eqn:Hk; simpl; [|done].
  rewrite bool_decide_eq_true_2 by eauto using Object_keys_spec. done.
Qed.

Lemma cleanup_lookup_Some now (m : table) k e :
  cleanupRateLimitMap now m !! k = Some e ↔
  m !! k = Some e ∧ expired now e = false.
Proof.
  rewrite cleanup_lookup. destruct (m !! k) as [e'|]; simpl.
  - destruct (expired now e') eqn:He'; split.
    + done.
    + intros [[= ->] ?]. congruence.
    + by intros [= ->].
    + by intros [[= ->] _].
  - split; [done | by intros [? _]].
Qed.

Lemma cleanup_lookup_fresh now (m : table) k e :
  cleanupRateLimitMap now m !! k = Some e → now - start e ≤ RATE_LIMIT_WINDOW_MS.
Proof.
  intros [_ He]%cleanup_lookup_Some. unfold expired in He.
  apply bool_decide_eq_false in He. lia.
Qed.


(** ** The limiter's decision *)

(** [rateLimit] with the sweep's effect on the caller's own entry worked
    out: the lookup after the sweep finds the entry exactly when it was
    there and still in its window. *)
Lemma rateLimit_unfold key now (m : table) :
  rateLimit key now m =
  let swept := cleanupRateLimitMap now m in
  match m !! key with
  | None => (next, <[key := Entry 1 now]> swept)
  | Some e =>
      if expired now e then (next, <[key := Entry 1 now]> swept)
      else if bool_decide (count e >= MAX_REQUESTS_PER_WINDOW)
      then (too_many_requests, swept)
      else (next, <[key := Entry (count e + 1) (start e)]> swept)
  end.
Proof.
  unfold rateLimit. cbv zeta. rewrite cleanup_lookup.
  destruct (m !! key) as [e|]; simpl; [|done].
  destruct (expired now e) eqn:He; [done|]. by rewrite He.
Qed.

Lemma cleanup_keeps_live now (m : table) key e :
  m !! key = Some e → expired now e = false →
  cleanupRateLimitMap now m !! key = Some e.
Proof. intros. by apply cleanup_lookup_Some. Qed.

Lemma rateLimit_increments key now (m : table) e :
  m !! key = Some e → now - start e ≤ RATE_LIMIT_WINDOW_MS →
  count e < MAX_REQUESTS_PER_WINDOW →
  (rateLimit key now m).1 = next ∧
  (rateLimit key now m).2 !! key = Some (Entry (count e + 1) (start e)).
Proof.
  intros Hm Hwin Hcnt. rewrite rateLimit_unfold. cbv zeta. rewrite Hm.
  unfold expired. rewrite bool_decide_eq_false_2 by lia.
  rewrite bool_decide_eq_false_2 by lia. simpl.
  by rewrite lookup_insert_eq.
Qed.

Lemma rateLimit_denies key now (m : table) e :
  m !! key = Some e → now - start e ≤ RATE_LIMIT_WINDOW_MS →
  count e >= MAX_REQUESTS_PER_WINDOW →
  (rateLimit key now m).1 = too_many_requests ∧
  (rateLimit key now m).2 !! key = Some e.
Proof.
  intros Hm Hwin Hcnt. rewrite rateLimit_unfold. cbv zeta. rewrite Hm.
  unfold expired. rewrite bool_decide_eq_false_2 by lia.
  rewrite bool_decide_eq_true_2 by lia. simpl.
  split; [done|]. apply cleanup_keeps_live; [done|].
  unfold expired. apply bool_decide_eq_false_2. lia.
Qed.

Lemma rateLimit_restarts key now (m : table) :
  (∀ e, m !! key = Some e → now - start e > RATE_LIMIT_WINDOW_MS) →
  (rateLimit key now m).1 = next ∧
  (rateLimit key now m).2 !! key = Some (Entry 1 now).
Proof.
  intros Hm. rewrite rateLimit_unfold. cbv zeta.
  destruct (m !! key) as [e|] eqn:Hk; simpl.
  - unfold expired. rewrite bool_decide_eq_true_2 by auto. simpl.
    by rewrite lookup_insert_eq.
  - by rewrite lookup_insert_eq.
Qed.

(** Calls of one identity inside its window, while there is room. *)
Lemma rateLimit_all_in_window key ws (times : list Z) : ∀ (m : table) c,
  m !! key = Some (Entry c ws) →
  Forall (λ t, t - ws ≤ RATE_LIMIT_WINDOW_MS) times →
  c + Z.of_nat (length times) ≤ MAX_REQUESTS_PER_WINDOW →
  (rateLimit_all (map (λ t, (key, t)) times) m).1 = replicate (length times) next ∧
  (rateLimit_all (map (λ t, (key, t)) times) m).2 !! key
    = Some (Entry (c + Z.of_nat (length times)) ws).
Proof.
  induction times as [|t times IH]; intros m c Hm Hwin Hroom; simpl.
  - split; [done|]. rewrite Hm. f_equal. f_equal. lia.
  - apply Forall_cons in Hwin as [Ht Hwin]. simpl in Hroom.
    destruct (rateLimit_increments key t m (Entry c ws)) as [Hv Hm1];
      [done | simpl; lia | simpl; lia |].
    destruct (rateLimit key t m) as [v m1]. simpl in Hv, Hm1. subst v.
    destruct (IH m1 (c + 1)) as [Hvs Hm2]; [done | done | lia |].
    destruct (rateLimit_all _ m1) as [vs m2]. simpl in *.
    split; [by rewrite Hvs|]. rewrite Hm2. f_equal. f_equal. lia.
Qed.

Definition count_in_range (e : entry) : Prop :=
  1 ≤ count e ≤ MAX_REQUESTS_PER_WINDOW.

Lemma cleanup_Forall (P : entry → Prop) now (m : table) :
  map_Forall (λ _, P) m → map_Forall (λ _, P) (cleanupRateLimitMap now m).
Proof.
  intros Hm k e [Hk _]%cleanup_lookup_Some. by apply (Hm k).
Qed.

Lemma rateLimit_count_in_range key now (m : table) :
  map_Forall (λ _, count_in_range) m →
  map_Forall (λ _, count_in_range) (rateLimit key now m).2.
Proof.
  intros Hm. pose proof (cleanup_Forall _ now m Hm) as Hs.
  assert (count_in_range (Entry 1 now)) as Hone.
  { unfold count_in_range, MAX_REQUESTS_PER_WINDOW. simpl. lia. }
  rewrite rateLimit_unfold. cbv zeta.
  destruct (m !! key) as [e|] eqn:Hk; simpl.
  - destruct (expired now e); simpl; [by apply map_Forall_insert_2|].
    case_bool_decide as Hc; simpl; [done|].
    apply map_Forall_insert_2; [|done].
    pose proof (Hm key e Hk) as He.
    unfold count_in_range in *. simpl. lia.
  - by apply map_Forall_insert_2.
Qed.

Lemma rateLimit_all_count_in_range calls : ∀ (m : table),
  map_Forall (λ _, count_in_range) m →
  map_Forall (λ _, count_in_range) (rateLimit_all calls m).2.
Proof.
  induction calls as [|[key now] calls IH]; intros m Hm; simpl; [done|].
  pose proof (rateLimit_count_in_range key now m Hm) as H1.
  destruct (rateLimit key now m) as [v m1]. simpl in H1.
  specialize (IH m1 H1). by destruct (rateLimit_all calls m1).
Qed.

Lemma rateLimit_fresh key now (m : table) :
  map_Forall (λ _ e, now - start e ≤ RATE_LIMIT_WINDOW_MS) (rateLimit key now m).2.
Proof.
  assert (map_Forall (λ _ e, now - start e ≤ RATE_LIMIT_WINDOW_MS)
            (cleanupRateLimitMap now m)) as Hs.
  { intros k e. apply cleanup_lookup_fresh. }
  assert (now - now ≤ RATE_LIMIT_WINDOW_MS) as Hone.
  { unfold RATE_LIMIT_WINDOW_MS. lia. }
  rewrite rateLimit_unfold. cbv zeta.
  destruct (m !! key) as [e|] eqn:Hk; simpl.
  - destruct (expired now e) eqn:He; simpl; [by apply map_Forall_insert_2|].
    case_bool_decide; simpl; [done|].
    apply map_Forall_insert_2; [|done]. simpl.
    unfold expired in He. apply bool_decide_eq_false in He. lia.
  - by apply map_Forall_insert_2.
Qed.

(** C2. For every key, time and table, [rateLimit] decides as the case
    analysis of the specification does on the table it is given, and
    leaves the key with the entry that analysis prescribes: a missing
    entry or one older than the window becomes [{count: 1, start: now}]
    and the request is allowed; otherwise a count at the maximum is a
    denial that leaves the entry as it was; otherwise the count goes up
    by one and the request is allowed.  The other keys hold what the
    sweep left. *)
Theorem rateLimit_case_analysis key now (m : table) :
  allowed (rateLimit key now m).1 = (rateLimit_spec key now m).1 ∧
  (rateLimit key now m).2 !! key = (rateLimit_spec key now m).2 !! key ∧
  delete key (rateLimit key now m).2 = delete key (cleanupRateLimitMap now m).
Proof.
  rewrite rateLimit_unfold. unfold rateLimit_spec. cbv zeta.
  destruct (m !! key) as [e|] eqn:Hk; simpl.
  - fold (expired now e). destruct (expired now e) eqn:He; simpl.
    + by rewrite !lookup_insert_eq, delete_insert_eq.
    + case_bool_decide; simpl.
      * rewrite Hk. split_and!; [done | | done].
        by apply cleanup_keeps_live.
      * by rewrite !lookup_insert_eq, delete_insert_eq.
  - by rewrite !lookup_insert_eq, delete_insert_eq.
Qed.

(** C3. With a maximum of 20 and a window of 60000 ms: an identity whose
    window opens at [ws] and who makes 19 more calls within 60000 ms of
    [ws] is admitted 20 times and then holds [{count: 20, start: ws}];
    a further call at any [now] with [now - ws <= 60000] is denied, and
    a call at [ws + 60001] is allowed and leaves the count at 1. *)
Theorem twenty_first_request_denied key ws (later : list Z) now (m : table) :
  (∀ e, m !! key = Some e → ws - start e > RATE_LIMIT_WINDOW_MS) →
  length later = 19%nat →
  Forall (λ t, t - ws ≤ 60000) later →
  now - ws ≤ 60000 →
  let calls := (key, ws) :: map (λ t, (key, t)) later in
  let m20 := (rateLimit_all calls m).2 in
  MAX_REQUESTS_PER_WINDOW = 20 ∧ RATE_LIMIT_WINDOW_MS = 60000 ∧
  (rateLimit_all calls m).1 = replicate 20 next ∧
  m20 !! key = Some (Entry 20 ws) ∧
  (rateLimit key now m20).1 = too_many_requests ∧
  (rateLimit key now m20).2 !! key = Some (Entry 20 ws) ∧
  (rateLimit key (ws + 60001) m20).1 = next ∧
  (rateLimit key (ws + 60001) m20).2 !! key = Some (Entry 1 (ws + 60001)).
Proof.
  intros Hfirst Hlen Hwin Hnow calls m20.
  split; [done|]. split; [done|].
  assert ((rateLimit_all calls m).1 = replicate 20 next ∧
          m20 !! key = Some (Entry 20 ws)) as [Hvs Hm20].
  { subst m20 calls. simpl.
    destruct (rateLimit_restarts key ws m Hfirst) as [Hv Hm1].
    destruct (rateLimit key ws m) as [v m1]. simpl in Hv, Hm1. subst v.
    destruct (rateLimit_all_in_window key ws later m1 1) as [Hvs Hm2];
      [done | done | rewrite Hlen; unfold MAX_REQUESTS_PER_WINDOW; lia |].
    destruct (rateLimit_all _ m1) as [vs m2]. simpl in *.
    rewrite Hvs, Hm2, Hlen. done. }
  split; [done|]. split; [done|].
  destruct (rateLimit_denies key now m20 (Entry 20 ws)) as [Hd He];
    [done | simpl; unfold RATE_LIMIT_WINDOW_MS; lia
    | simpl; unfold MAX_REQUESTS_PER_WINDOW; lia |].
  split; [done|]. split; [done|].
  apply rateLimit_restarts. intros e He'. rewrite Hm20 in He'.
  injection He' as <-. simpl. unfold RATE_LIMIT_WINDOW_MS. lia.
Qed.

Lemma twenty_first_request_denied_witness :
  (rateLimit_all (("a", 1000) :: map (λ t, ("a", t)) (replicate 19 1500))
     (∅ : table)).1 = replicate 20 next ∧
  (rateLimit "a" 61000
     (rateLimit_all (("a", 1000) :: map (λ t, ("a", t)) (replicate 19 1500))
        (∅ : table)).2).1 = too_many_requests.
Proof.
  pose proof (twenty_first_request_denied "a" 1000 (replicate 19 1500) 61000
                (∅ : table)) as H.
  destruct H as (_ & _ & Hvs & _ & Hd & _).
  - intros e He. by rewrite lookup_empty in He.
  - reflexivity.
  - repeat constructor; lia.
  - lia.
  - split; [exact Hvs | exact Hd].
Defined.

(** C4. The sweep of a call removes exactly the entries with
    [now - start > RATE_LIMIT_WINDOW_MS] and is what the call's own
    lookup then reads, so when [rateLimit key now] is done every entry of
    the table has [now - start <= RATE_LIMIT_WINDOW_MS]. *)
Theorem rateLimit_sweeps_first key now (m : table) :
  cleanupRateLimitMap now m
    = filter (λ kv, ¬ now - start kv.2 > RATE_LIMIT_WINDOW_MS) m ∧
  rateLimit key now m = rateLimit key now (cleanupRateLimitMap now m) ∧
  map_Forall (λ _ e, now - start e ≤ RATE_LIMIT_WINDOW_MS) (rateLimit key now m).2.
Proof.
  assert (cleanupRateLimitMap now m
    = filter (λ kv, ¬ now - start kv.2 > RATE_LIMIT_WINDOW_MS) m) as Hsweep.
  { apply map_eq. intros k. rewrite cleanup_lookup, map_lookup_filter.
    destruct (m !! k) as [e|]; simpl; [|done].
    unfold expired. case_bool_decide.
    - by rewrite option_guard_False by tauto.
    - by rewrite option_guard_True. }
  split; [done|]. split; [|apply rateLimit_fresh].
  assert (cleanupRateLimitMap now (cleanupRateLimitMap now m)
          = cleanupRateLimitMap now m) as Hidem.
  { apply map_eq. intros k. rewrite (cleanup_lookup now (cleanupRateLimitMap _ _)).
    destruct (cleanupRateLimitMap now m !! k) as [e|] eqn:Hk; simpl; [|done].
    apply cleanup_lookup_Some in Hk as [_ ->]. done. }
  unfold rateLimit at 2. cbv zeta. rewrite Hidem. reflexivity.
Qed.

(** C9. Whatever calls have been made since the table was empty, every
    entry has [1 <= count <= MAX_REQUESTS_PER_WINDOW], and that maximum
    is 20. *)
Theorem reachable_counts_bounded (calls : list (string * Z)) :
  MAX_REQUESTS_PER_WINDOW = 20 ∧
  map_Forall (λ _ e, 1 ≤ count e ≤ MAX_REQUESTS_PER_WINDOW)
    (rateLimit_all calls ∅).2.
Proof.
  split; [done|].
  apply (rateLimit_all_count_in_range calls ∅). apply map_Forall_empty.
Qed.

(** ** The alerts file *)

(** *** What [JSON.stringify] writes *)

(** Induction on a value, with the items of an array and the property
    values of an object as smaller values. *)
Lemma JSON_nested_ind (P : JSON → Prop) :
  P JNull → (∀ b, P (JBool b)) → (∀ n, P (JNum n)) → (∀ s, P (JStr s)) →
  (∀ items, Forall P items → P (JArr items)) →
  (∀ props, Forall (λ kv, P kv.2) props → P (JObj props)) →
  ∀ v, P v.
Proof.
  intros Hnull Hbool Hnum Hstr Harr Hobj. fix IH 1. intros v.
  destruct v as [|b|n|str|items|props].
  - apply Hnull.
  - apply Hbool.
  - apply Hnum.
  - apply Hstr.
  - apply Harr. revert items. fix IHitems 1.
    intros [|x items]; constructor; [apply IH | apply IHitems].
  - apply Hobj. revert props. fix IHprops 1.
    intros [|[k x] props]; constructor; [apply IH | apply IHprops].
Qed.

(** Text that was written reads back as a value that is written the
    same way again. *)
Lemma as_written_idem v : as_written (as_written v) = as_written v.
Proof.
  induction v as [|b|n|str|items IH|props IH] using JSON_nested_ind; simpl;
    try done.
  - by destruct n.
  - f_equal. rewrite map_map. induction IH as [|x items Hx _ IHitems]; simpl;
      [done|]. by rewrite Hx, IHitems.
  - f_equal. rewrite map_map.
    induction IH as [|[k x] props Hx _ IHprops]; simpl; [done|].
    simpl in Hx. by rewrite Hx, IHprops.
Qed.

(** A value without [-0] and infinities is written as it is. *)
Lemma as_written_plain v : plain v = true → as_written v = v.
Proof.
  induction v as [|b|n|str|items IH|props IH] using JSON_nested_ind; simpl;
    try done.
  - by destruct n.
  - intros Hpl. f_equal.
    induction IH as [|x items Hx _ IHitems]; simpl in *; [done|].
    apply andb_true_iff in Hpl as [Hpx Hpl]. by rewrite Hx, IHitems.
  - intros Hpl. f_equal.
    induction IH as [|[k x] props Hx _ IHprops]; simpl in *; [done|].
    apply andb_true_iff in Hpl as [Hpx Hpl]. by rewrite Hx, IHprops.
Qed.

Lemma plain_as_written v : plain (as_written v) = true.
Proof.
  induction v as [|b|n|str|items IH|props IH] using JSON_nested_ind; simpl;
    try done.
  - by destruct n.
  - induction IH as [|x items Hx _ IHitems]; simpl; [done|].
    by rewrite Hx, IHitems.
  - induction IH as [|[k x] props Hx _ IHprops]; simpl; [done|].
    simpl in Hx. by rewrite Hx, IHprops.
Qed.

Lemma map_as_written_idem (items : list JSON) :
  map as_written (map as_written items) = map as_written items.
Proof.
  rewrite map_map. apply map_ext. intros x. apply as_written_idem.
Qed.

Lemma map_as_written_plain (items : list JSON) :
  forallb plain items = true → map as_written items = items.
Proof.
  induction items as [|x items IH]; simpl; [done|].
  intros [Hx Hitems]%andb_true_iff.
  by rewrite as_written_plain, IH.
Qed.

(** Reading a property commutes with writing the object. *)
Lemma own_prop_as_written name props :
  own_prop name
    (map (λ kv, match kv with (k, x) => (k, as_written x) end) props)
  = as_written <$> own_prop name props.
Proof.
  induction props as [|[k x] props IH]; simpl; [done|].
  by destruct (String.eqb k name).
Qed.

Lemma get_as_written v name :
  get (as_written v) name = as_written <$> get v name.
Proof.
  destruct v as [|b|n|str|items|props]; simpl; try done.
  - by destruct n.
  - apply own_prop_as_written.
Qed.

Lemma typeof_string_written x :
  typeof_string (as_written <$> x) = typeof_string x.
Proof. destruct x as [[| |[]| | |]|]; reflexivity. Qed.

Lemma includes_written l x : includes l (as_written <$> x) = includes l x.
Proof. destruct x as [[| |[]| | |]|]; reflexivity. Qed.

(** *** The helpers *)

Lemma readAlertsSafe_eq d :
  readAlertsSafe d =
  (Ok (match store d with File (Document v) => v | _ => JArr [] end),
   logged Read d).
Proof.
  unfold readAlertsSafe, try_catch, bind, readFileSync. simpl.
  destruct (store d) as [| | |[text|v]]; reflexivity.
Qed.

Lemma writeAlertsSafe_eq alerts d :
  let text := Document (as_written alerts) in
  writeAlertsSafe alerts d =
  match store d with
  | NoDir | Unreadable => (Ok false, logged (Write text) d)
  | NoFile | File _ =>
      if write_ok d
      then (Ok true, with_store (File text) (logged (Write text) d))
      else (Ok false, logged (Write text) d)
  end.
Proof.
  unfold writeAlertsSafe, try_catch, bind, writeFileSync, JSON_stringify.
  simpl. destruct (store d); try reflexivity; by destruct (write_ok d).
Qed.

(** [appendOne] on a file that [readAlertsSafe] reads as an array: the
    whole array is written anew, the record last. *)
Lemma appendOne_writes alert d c :
  store d = File c → parses_to_non_array c = false → write_ok d = true →
  let text := Document (JArr (map as_written (items_of c ++ [alert]))) in
  appendOne alert d =
  (Ok true, with_store (File text) (logged (Write text) (logged Read d))).
Proof.
  intros Hst Hc Hw. cbv zeta. unfold appendOne, bind.
  rewrite readAlertsSafe_eq, Hst.
  destruct c as [text|v]; simpl.
  - unfold ret. rewrite writeAlertsSafe_eq. simpl. by rewrite Hst, Hw.
  - destruct v; try discriminate. simpl.
    unfold ret. rewrite writeAlertsSafe_eq. simpl. by rewrite Hst, Hw.
Qed.

(** Whenever [appendOne] reports success the file ends with the
    record, as it is written. *)
Lemma appendOne_true alert d d' :
  appendOne alert d = (Ok true, d') →
  ∃ items, store d' = File (Document (JArr (items ++ [as_written alert]))).
Proof.
  unfold appendOne, bind. rewrite readAlertsSafe_eq.
  set (existing := match store d with File (Document v) => v | _ => JArr [] end).
  destruct existing as [| | | |items|]; simpl; try discriminate.
  unfold ret. rewrite writeAlertsSafe_eq. simpl.
  destruct (store d); try discriminate;
    destruct (write_ok d); try discriminate;
    intros [= <-]; exists (map as_written items); simpl;
    by rewrite map_app.
Qed.

(** What [initAlertsFile] does to a file that is there but is not a JSON
    array, on a disk that takes the write: both the [Array.isArray]
    branch and the [catch] end in the same reset. *)
Lemma initAlertsFile_resets d c :
  store d = File c → corrupt c = true → write_ok d = true →
  (initAlertsFile d).1 = Ok tt ∧
  store (initAlertsFile d).2 = File (Document (JArr [])) ∧
  write_ok (initAlertsFile d).2 = true.
Proof.
  destruct d as [st mk wr tr]. simpl. intros -> Hc ->.
  destruct c as [text|v]; [done|].
  by destruct v.
Qed.

(** C8. [readAlertsSafe] returns on every disk, and what it returns is
    the empty array whenever [readFileSync] or [JSON.parse] threw. *)
Theorem readAlertsSafe_never_throws d :
  (readAlertsSafe d).1 =
  Ok (match (readFileSync d).1 with
      | Throw _ => JArr []
      | Ok data =>
          match (JSON_parse data (readFileSync d).2).1 with
          | Throw _ => JArr []
          | Ok parsed => parsed
          end
      end).
Proof.
  rewrite readAlertsSafe_eq. unfold readFileSync. simpl.
  destruct (store d) as [| | |[text|v]]; reflexivity.
Qed.

(** C6. If the file holds text that is not JSON, or JSON that is not an
    array, and the disk takes writes, then [initAlertsFile] returns,
    [readAlertsSafe] after it gives the empty array, [appendOne] after
    that reports success, and the next [readAlertsSafe] gives a
    one-element array: the appended record as [JSON.stringify] wrote
    it, which is the record itself when it holds no infinity and no
    [-0]. *)
Theorem corruption_recovery d c alert :
  store d = File c → corrupt c = true → write_ok d = true →
  let d1 := (initAlertsFile d).2 in
  let d2 := (readAlertsSafe d1).2 in
  let d3 := (appendOne alert d2).2 in
  (initAlertsFile d).1 = Ok tt ∧
  (readAlertsSafe d1).1 = Ok (JArr []) ∧
  (appendOne alert d2).1 = Ok true ∧
  (readAlertsSafe d3).1 = Ok (JArr [as_written alert]) ∧
  (plain alert = true → (readAlertsSafe d3).1 = Ok (JArr [alert])).
Proof.
  intros Hst Hc Hw d1 d2 d3.
  destruct (initAlertsFile_resets d c Hst Hc Hw) as (Hinit & Hst1 & Hw1).
  fold d1 in Hst1, Hw1.
  assert (store d2 = File (Document (JArr [])) ∧ write_ok d2 = true) as [Hst2 Hw2].
  { subst d2. by rewrite readAlertsSafe_eq. }
  split; [done|]. split; [by rewrite readAlertsSafe_eq, Hst1|].
  subst d3. rewrite (appendOne_writes alert d2 _ Hst2 eq_refl Hw2).
  split; [done|]. rewrite readAlertsSafe_eq. split; [done|].
  intros Hplain. simpl. by rewrite as_written_plain.
Qed.

Lemma corruption_recovery_witness :
  let d := Disk (File (Document (JObj [("oops", JNull)]))) true true [] in
  let d2 := (readAlertsSafe (initAlertsFile d).2).2 in
  (readAlertsSafe (initAlertsFile d).2).1 = Ok (JArr []) ∧
  (readAlertsSafe (appendOne (JStr "r") d2).2).1 = Ok (JArr [JStr "r"]).
Proof.
  intros d d2.
  destruct (corruption_recovery d (Document (JObj [("oops", JNull)])) (JStr "r"))
    as (_ & Hread & _ & Hlast & _); [reflexivity | reflexivity | reflexivity |].
  split; [exact Hread | exact Hlast].
Defined.

(** C7 as stated fails in two ways.  On a file that holds JSON other
    than an array, [readAlertsSafe] hands the object to the handler,
    [push] is a [TypeError], nothing is written, and the next read
    gives the object again.  On a file that holds an array, a record
    with a number that overflowed to infinity is written with [null]
    in its place, so the last element read back is not the record. *)
Lemma appendOne_fails_on_object_store :
  let d := Disk (File (Document (JObj []))) true true [] in
  let r := JObj [("type", JStr "port-scan"); ("message", JStr "5 ports probed");
                 ("severity", JStr "HIGH"); ("time", JStr "2024-01-01T00:00:00.000Z")] in
  let d' := Disk (File (Document (JArr []))) true true [] in
  let r' := JObj [("type", JStr "port-scan"); ("message", JStr "5 ports probed");
                  ("severity", JStr "HIGH"); ("sensor", JNum (Infinity false));
                  ("time", JStr "2024-01-01T00:00:00.000Z")] in
  (appendOne r d).1 = Throw TypeError ∧
  store (appendOne r d).2 = File (Document (JObj [])) ∧
  (readAlertsSafe (appendOne r d).2).1 = Ok (JObj []) ∧
  (appendOne r' d').1 = Ok true ∧
  (readAlertsSafe (appendOne r' d').2).1
    = Ok (JArr [JObj [("type", JStr "port-scan");
                      ("message", JStr "5 ports probed");
                      ("severity", JStr "HIGH"); ("sensor", JNull);
                      ("time", JStr "2024-01-01T00:00:00.000Z")]]) ∧
  ¬ (∀ alert d0 c, store d0 = File c → write_ok d0 = true →
       ∃ items, (readAlertsSafe (appendOne alert d0).2).1
                = Ok (JArr (items ++ [alert]))) ∧
  ¬ (∀ alert d0 items0, store d0 = File (Document (JArr items0)) →
       write_ok d0 = true →
       ∃ items, (readAlertsSafe (appendOne alert d0).2).1
                = Ok (JArr (items ++ [alert]))).
Proof.
  intros d r d' r'. split; [reflexivity|]. split; [reflexivity|].
  split; [reflexivity|]. split; [reflexivity|]. split; [reflexivity|].
  split.
  - intros H.
    destruct (H r d (Document (JObj [])) eq_refl eq_refl) as [items Hr].
    discriminate Hr.
  - intros H. destruct (H r' d' [] eq_refl eq_refl) as [items Hr].
    simpl in Hr. injection Hr as Hr.
    destruct items as [|x [|y items]]; discriminate Hr.
Qed.

(** C7, amended. For every record and every file whose text is a JSON
    array or is not JSON at all, on a disk that takes the write,
    [appendOne] reports success and [readAlertsSafe] after it gives the
    records that were there followed by the new one, each as
    [JSON.stringify] writes it: its last element is the record with
    every infinity replaced by [null] and every [-0] by [0], which is
    the record itself when it holds no such number. *)
Theorem appendOne_then_readAll alert d c :
  store d = File c → parses_to_non_array c = false → write_ok d = true →
  let d1 := (appendOne alert d).2 in
  (appendOne alert d).1 = Ok true ∧
  (readAlertsSafe d1).1
    = Ok (JArr (map as_written (items_of c) ++ [as_written alert])) ∧
  last (map as_written (items_of c) ++ [as_written alert])
    = Some (as_written alert) ∧
  (plain alert = true → as_written alert = alert).
Proof.
  intros Hst Hc Hw d1. subst d1.
  rewrite (appendOne_writes alert d c Hst Hc Hw).
  split; [done|]. split; [by rewrite readAlertsSafe_eq, map_app|].
  split; [apply last_snoc | apply as_written_plain].
Qed.

Lemma appendOne_then_readAll_witness :
  let d := Disk (File (Document (JArr [JNum (Finite 1)]))) true true [] in
  (readAlertsSafe (appendOne (JNum (Finite 2)) d).2).1 = Ok (JArr [JNum (Finite 1); JNum (Finite 2)]).
Proof.
  intros d.
  destruct (appendOne_then_readAll (JNum (Finite 2)) d (Document (JArr [JNum (Finite 1)])))
    as (_ & Hread & _); [reflexivity | reflexivity | reflexivity |].
  exact Hread.
Defined.

(** ** Properties of objects *)

Lemma own_prop_set_prop_eq name x props :
  own_prop name (set_prop name x props) = Some x.
Proof.
  induction props as [|[k y] rest IH]; simpl.
  - by rewrite String.eqb_refl.
  - destruct (String.eqb k name) eqn:Hk; simpl; by rewrite Hk.
Qed.

Lemma own_prop_set_prop_ne name k x props :
  name ≠ k → own_prop k (set_prop name x props) = own_prop k props.
Proof.
  intros Hne. induction props as [|[k' y] rest IH]; simpl.
  - by apply String.eqb_neq in Hne as ->.
  - destruct (String.eqb k' name) eqn:Hk; simpl.
    + apply String.eqb_eq in Hk as ->.
      by apply String.eqb_neq in Hne as ->.
    + by rewrite IH.
Qed.

Lemma set_prop_others name x props :
  filter (λ kv, kv.1 ≠ name) (set_prop name x props)
  = filter (λ kv, kv.1 ≠ name) props.
Proof.
  induction props as [|[k y] rest IH]; simpl.
  - by rewrite filter_cons_False by (simpl; auto).
  - destruct (String.eqb k name) eqn:Hk.
    + apply String.eqb_eq in Hk as ->.
      by rewrite !filter_cons_False by (simpl; auto).
    + apply String.eqb_neq in Hk.
      rewrite !filter_cons_True by done. by rewrite IH.
Qed.

(** A body that passes the handler's test is an object whose [type] and
    [message] are strings and whose [severity] is an allowed one. *)
Lemma not_rejected body :
  rejected body = false →
  ∃ props, body = JObj props ∧
    typeof_string (own_prop "type" props) = true ∧
    typeof_string (own_prop "message" props) = true ∧
    includes allowedSeverities (own_prop "severity" props) = true.
Proof.
  unfold rejected. intros H.
  apply orb_false_iff in H as [H Hsev]. apply orb_false_iff in H as [Hty Hmsg].
  apply negb_false_iff in Hty, Hmsg, Hsev.
  destruct body; try discriminate. eauto.
Qed.

(** ** The handlers *)

Section RoutesFacts.
Variable hashIp : string → string.

(** A record is added only by a request that the limiter let through
    and the test accepted, and it is the body with [time] assigned, as
    it is written. *)
Lemma persisted_record_inv req now iso s rec :
  persisted_record (post_api_alert hashIp req now iso s) = Some rec →
  rejected (req_body req) = false ∧
  rec = as_written (assign (req_body req) "time" (JStr iso)).
Proof.
  unfold persisted_record, post_api_alert.
  destruct (rateLimiter hashIp req now (rateLimitMap s)) as [[|] m]; simpl;
    [|discriminate].
  unfold post_alert. destruct (rejected (req_body req)) eqn:Hrej;
    [discriminate|].
  unfold bind.
  destruct (appendOne _ (fs s)) as [[[|]|e] d'] eqn:Happ; simpl;
    try discriminate.
  apply appendOne_true in Happ as [items ->].
  rewrite last_snoc. by intros [= <-].
Qed.

(** C1, amended. Every record that a submission adds to the file has
    a [severity] among LOW, MEDIUM and HIGH, and a [type] and a
    [message] that are strings (the empty string included). *)
Theorem persisted_record_validated req now iso s rec :
  persisted_record (post_api_alert hashIp req now iso s) = Some rec →
  includes allowedSeverities (get rec "severity") = true ∧
  typeof_string (get rec "type") = true ∧
  typeof_string (get rec "message") = true.
Proof.
  intros [Hrej ->]%persisted_record_inv.
  apply not_rejected in Hrej as (props & -> & Hty & Hmsg & Hsev).
  rewrite !get_as_written. simpl.
  rewrite !own_prop_set_prop_ne by done.
  by rewrite includes_written, !typeof_string_written.
Qed.

(** C5, amended. A submission whose body has a [severity] outside LOW,
    MEDIUM and HIGH, or a [type] or [message] that is not a string,
    makes no call to the file system at all, and is answered 400 when
    the limiter lets it through and 429 when it does not. *)
Theorem invalid_submission_rejected req now iso s :
  typeof_string (get (req_body req) "type") = false
  ∨ typeof_string (get (req_body req) "message") = false
  ∨ includes allowedSeverities (get (req_body req) "severity") = false →
  let out := post_api_alert hashIp req now iso s in
  fs out.2 = fs s ∧
  out.1 = if allowed (rateLimiter hashIp req now (rateLimitMap s)).1
          then InvalidInput else TooManyRequests.
Proof.
  intros Hbad. unfold post_api_alert.
  destruct (rateLimiter hashIp req now (rateLimitMap s)) as [[|] m]; simpl;
    [|done].
  unfold post_alert.
  assert (rejected (req_body req) = true) as ->; [|done].
  unfold rejected. destruct Hbad as [->|[->| ->]]; simpl;
    by rewrite ?orb_true_r.
Qed.

(** The run of a request that the limiter lets through, whose body
    passes the test, on a file that reads as an array and a disk that
    takes the write. *)
Lemma post_api_alert_saves req now iso s c :
  rejected (req_body req) = false →
  (rateLimiter hashIp req now (rateLimitMap s)).1 = next →
  store (fs s) = File c → parses_to_non_array c = false →
  write_ok (fs s) = true →
  let alert := assign (req_body req) "time" (JStr iso) in
  let written := Document (JArr (map as_written (items_of c ++ [alert]))) in
  post_api_alert hashIp req now iso s =
  (AlertSaved,
   Server (rateLimiter hashIp req now (rateLimitMap s)).2
     (with_store (File written) (logged (Write written) (logged Read (fs s))))).
Proof.
  intros Hrej Hadm Hst Hc Hw. cbv zeta. unfold post_api_alert.
  destruct (rateLimiter hashIp req now (rateLimitMap s)) as [v m].
  simpl in Hadm. subst v. unfold post_alert. rewrite Hrej.
  unfold bind.
  by rewrite (appendOne_writes _ (fs s) c Hst Hc Hw).
Qed.

(** C10, amended. A body that passes the test is an object, and the
    record a submission adds for it is that object with [time] set to
    the server's timestamp, as [JSON.stringify] writes it: the
    properties keep their names and their places, a [time] sent by the
    client is replaced, [type], [message] and [severity] are stored as
    they came, and the value of every other property is stored with
    each infinity in it replaced by [null] and each [-0] by [0], so
    verbatim when it holds no such number.  When the limiter lets the
    request through, the file holds an array (or text that is not JSON)
    and the disk takes the write, the record is added and the answer is
    [alert saved]. *)
Theorem valid_submission_persisted req now iso s :
  rejected (req_body req) = false →
  ∃ props, req_body req = JObj props ∧
    let stamped := set_prop "time" (JStr iso) props in
    let stored :=
      map (λ kv, match kv with (k, x) => (k, as_written x) end) stamped in
    let out := post_api_alert hashIp req now iso s in
    (∀ rec, persisted_record out = Some rec → rec = JObj stored) ∧
    (∀ c, (rateLimiter hashIp req now (rateLimitMap s)).1 = next →
          store (fs s) = File c → parses_to_non_array c = false →
          write_ok (fs s) = true →
          out.1 = AlertSaved ∧
          store (fs out.2)
            = File (Document (JArr (map as_written (items_of c)
                                    ++ [JObj stored]))) ∧
          persisted_record out = Some (JObj stored)) ∧
    stored.*1 = stamped.*1 ∧
    filter (λ kv, kv.1 ≠ "time"%string) stamped
      = filter (λ kv, kv.1 ≠ "time"%string) props ∧
    own_prop "time" stored = Some (JStr iso) ∧
    own_prop "type" stored = own_prop "type" props ∧
    own_prop "message" stored = own_prop "message" props ∧
    own_prop "severity" stored = own_prop "severity" props ∧
    (∀ name, name ≠ "time"%string →
             own_prop name stored = as_written <$> own_prop name props) ∧
    (∀ name x, name ≠ "time"%string → own_prop name props = Some x →
               plain x = true → own_prop name stored = Some x).
Proof.
  intros Hrej.
  destruct (not_rejected _ Hrej) as (props & Hbody & Hty & Hmsg & Hsev).
  exists props. split; [done|]. cbv zeta.
  assert (∀ name, name ≠ "time"%string →
            own_prop name
              (map (λ kv, match kv with (k, x) => (k, as_written x) end)
                 (set_prop "time" (JStr iso) props))
            = as_written <$> own_prop name props) as Hother.
  { intros name Hne. rewrite own_prop_as_written.
    by rewrite own_prop_set_prop_ne. }
  split_and!.
  - intros rec [_ ->]%persisted_record_inv. by rewrite Hbody.
  - intros c Hadm Hst Hc Hw.
    rewrite (post_api_alert_saves req now iso s c Hrej Hadm Hst Hc Hw).
    rewrite Hbody. unfold persisted_record. simpl.
    rewrite map_app. simpl. by rewrite last_snoc.
  - rewrite <- list_fmap_compose. apply list_fmap_ext. by intros i [k x].
  - apply set_prop_others.
  - by rewrite own_prop_as_written, own_prop_set_prop_eq.
  - rewrite Hother by done.
    by destruct (own_prop "type" props) as [[]|].
  - rewrite Hother by done.
    by destruct (own_prop "message" props) as [[]|].
  - rewrite Hother by done.
    by destruct (own_prop "severity" props) as [[]|].
  - exact Hother.
  - intros name x Hne Hx Hplain. rewrite Hother by done.
    rewrite Hx. simpl. by rewrite as_written_plain.
Qed.

End RoutesFacts.

(** ** Concrete requests *)

Lemma passes_on_empty_table hashIp req now :
  (rateLimiter hashIp req now ∅).1 = next.
Proof.
  apply rateLimit_restarts. intros e He. by rewrite lookup_empty in He.
Qed.

(** C1 as stated fails: a body whose [type] and [message] are the empty
    string passes the test and is written to the file. *)
Lemma empty_strings_are_persisted :
  let out := post_api_alert tagged (Request "10.0.0.1" blank_alert) 0 iso0
               (Server ∅ fresh_disk) in
  out.1 = AlertSaved ∧
  persisted_record out
    = Some (JObj [("type", JStr EmptyString); ("message", JStr EmptyString);
                  ("severity", JStr "LOW"); ("time", JStr iso0)]) ∧
  ¬ (∀ hashIp req now iso s rec,
       persisted_record (post_api_alert hashIp req now iso s) = Some rec →
       includes allowedSeverities (get rec "severity") = true ∧
       nonempty_string (get rec "type") = true ∧
       nonempty_string (get rec "message") = true).
Proof.
  intros out.
  assert (out.1 = AlertSaved ∧
          persisted_record out = Some (assign blank_alert "time" (JStr iso0)))
    as [Hresp Hrec].
  { subst out.
    rewrite (post_api_alert_saves tagged (Request "10.0.0.1" blank_alert) 0 iso0
               (Server ∅ fresh_disk) (Document (JArr [])));
      [done | done | apply passes_on_empty_table | done | done | done]. }
  split; [done|]. split; [done|].
  intros H. destruct (H _ _ _ _ _ _ Hrec) as (_ & Hty & _). discriminate Hty.
Qed.

Lemma persisted_record_validated_witness :
  typeof_string (get (assign blank_alert "time" (JStr iso0)) "type") = true.
Proof.
  refine (proj1 (proj2 (persisted_record_validated tagged
            (Request "10.0.0.1" blank_alert) 0 iso0 (Server ∅ fresh_disk)
            (assign blank_alert "time" (JStr iso0)) _))).
  vm_compute. reflexivity.
Defined.

(** C5 as stated fails: the limiter comes first, so a malformed body
    from a caller who has used up the window is answered 429, not
    400. *)
Lemma invalid_submission_over_limit :
  let req := Request "10.0.0.1" (JObj [("severity", JStr "URGENT")]) in
  let out := post_api_alert tagged req 10 iso0 (Server busy_table fresh_disk) in
  out.1 = TooManyRequests ∧
  fs out.2 = fresh_disk ∧
  ¬ (∀ hashIp req now iso s,
       typeof_string (get (req_body req) "type") = false
       ∨ typeof_string (get (req_body req) "message") = false
       ∨ includes allowedSeverities (get (req_body req) "severity") = false →
       (post_api_alert hashIp req now iso s).1 = InvalidInput ∧
       fs (post_api_alert hashIp req now iso s).2 = fs s).
Proof.
  intros req out.
  assert (out.1 = TooManyRequests) as Hout by (vm_compute; reflexivity).
  split; [done|]. split; [vm_compute; reflexivity|].
  intros H.
  destruct (H tagged req 10 iso0 (Server busy_table fresh_disk)) as [H400 _].
  - left. reflexivity.
  - fold out in H400. rewrite Hout in H400. discriminate H400.
Qed.

Lemma invalid_submission_rejected_witness :
  let out := post_api_alert tagged (Request "10.0.0.1" (JArr [])) 0 iso0
               (Server ∅ fresh_disk) in
  fs out.2 = fresh_disk ∧ out.1 = InvalidInput.
Proof.
  refine (invalid_submission_rejected tagged (Request "10.0.0.1" (JArr [])) 0
            iso0 (Server ∅ fresh_disk) _).
  left. reflexivity.
Defined.

(** C10 as stated fails: an extra property whose value is a number
    that overflowed is not stored verbatim, it is stored as [null]. *)
Lemma overflow_is_saved_as_null :
  let out := post_api_alert tagged (Request "10.0.0.1" overflow_alert) 0 iso0
               (Server ∅ fresh_disk) in
  rejected overflow_alert = false ∧
  out.1 = AlertSaved ∧
  persisted_record out
    = Some (JObj [("type", JStr "port-scan");
                  ("message", JStr "5 ports probed");
                  ("severity", JStr "HIGH"); ("sensor", JNull);
                  ("time", JStr iso0)]) ∧
  get overflow_alert "sensor" = Some (JNum (Infinity false)) ∧
  ¬ (∀ hashIp req now iso s rec name,
       rejected (req_body req) = false →
       persisted_record (post_api_alert hashIp req now iso s) = Some rec →
       name ≠ "time"%string →
       get rec name = get (req_body req) name).
Proof.
  intros out.
  assert (persisted_record out
          = Some (JObj [("type", JStr "port-scan");
                        ("message", JStr "5 ports probed");
                        ("severity", JStr "HIGH"); ("sensor", JNull);
                        ("time", JStr iso0)])) as Hrec
    by (vm_compute; reflexivity).
  split; [reflexivity|]. split; [vm_compute; reflexivity|].
  split; [exact Hrec|]. split; [reflexivity|].
  intros H.
  specialize (H tagged (Request "10.0.0.1" overflow_alert) 0 iso0
                (Server ∅ fresh_disk) _ "sensor"%string eq_refl Hrec).
  discriminate H. discriminate.
Qed.

Lemma valid_submission_persisted_witness :
  persisted_record
    (post_api_alert tagged (Request "10.0.0.1" port_scan) 0 iso0
       (Server ∅ fresh_disk))
  = Some (JObj [("type", JStr "port-scan"); ("message", JStr "5 ports probed");
                ("severity", JStr "HIGH"); ("time", JStr iso0);
                ("sensor", JNum (Finite 7))]).
Proof.
  destruct (valid_submission_persisted tagged (Request "10.0.0.1" port_scan) 0
              iso0 (Server ∅ fresh_disk))
    as (props & Hbody & _ & Hrun & _).
  - vm_compute. reflexivity.
  - simpl in Hbody. injection Hbody as <-.
    destruct (Hrun (Document (JArr []))) as (_ & _ & Hrec).
    + vm_compute. reflexivity.
    + reflexivity.
    + reflexivity.
    + reflexivity.
    + exact Hrec.
Defined.

(** The scenario of the specification: one valid alert on a fresh
    store, then the listing. *)
Example port_scan_scenario :
  let out := post_api_alert tagged (Request "10.0.0.1" port_scan) 0 iso0
               (Server ∅ fresh_disk) in
  out.1 = AlertSaved ∧
  (get_api_alerts out.2).1
    = Alerts (JArr [JObj [("type", JStr "port-scan");
                          ("message", JStr "5 ports probed");
                          ("severity", JStr "HIGH"); ("time", JStr iso0);
                          ("sensor", JNum (Finite 7))]]).
Proof. vm_compute. split; reflexivity. Qed.

(** * Further properties *)

Import Run.

(** ** The sweep and the enumeration order *)

(** X1. The sweep does not depend on the order in which
    [Object.keys] lists the keys: the loop run over the keys of the
    table in any order ends in the same table. *)
Theorem cleanup_any_order now (ks : list string) (m : table) :
  ks ≡ₚ Object_keys m →
  cleanup_loop now ks m = cleanupRateLimitMap now m.
Proof.
  intros Hperm. apply map_eq. intros k.
  rewrite cleanup_loop_lookup, cleanup_lookup.
  destruct (m !! k) as [e|] eqn:Hk; simpl; [|done].
  rewrite bool_decide_eq_true_2; [done|].
  rewrite Hperm. by eapply Object_keys_spec.
Qed.

Lemma cleanup_any_order_witness :
  cleanup_loop 70000 ["b"; "c"; "a"]%string
    ({[ "a"%string := Entry 3 0 ]} ∪ {[ "b"%string := Entry 1 60000 ]}
     ∪ {[ "c"%string := Entry 20 5000 ]})
  = cleanupRateLimitMap 70000
      ({[ "a"%string := Entry 3 0 ]} ∪ {[ "b"%string := Entry 1 60000 ]}
       ∪ {[ "c"%string := Entry 20 5000 ]}).
Proof.
  apply cleanup_any_order.
  apply (bool_decide_unpack _). vm_compute. exact I.
Defined.

(** ** Quota of a window *)

Lemma rateLimit_other key k now (m : table) :
  k ≠ key →
  (rateLimit k now m).2 !! key = cleanupRateLimitMap now m !! key.
Proof.
  intros Hne. rewrite rateLimit_unfold. cbv zeta.
  destruct (m !! k) as [e|]; simpl.
  - destruct (expired now e); simpl; [by rewrite lookup_insert_ne|].
    case_bool_decide; simpl; [done | by rewrite lookup_insert_ne].
  - by rewrite lookup_insert_ne.
Qed.

(** X2. Inside one window an identity is let through until its count
    reaches 20 and refused from then on: from an entry with count [c]
    opened at [ws], a run of its calls at times within
    [RATE_LIMIT_WINDOW_MS] of [ws] gets [20 - c] times [next] (or as
    many as there are calls) followed by 429 for all the rest, and the
    count ends at [min 20 (c + calls)] with the window start
    unchanged. *)
Theorem window_quota key ws (times : list Z) : ∀ (m : table) c,
  m !! key = Some (Entry c ws) →
  c ≤ MAX_REQUESTS_PER_WINDOW →
  Forall (λ t, t - ws ≤ RATE_LIMIT_WINDOW_MS) times →
  let out := rateLimit_all (map (λ t, (key, t)) times) m in
  let room := Z.to_nat (MAX_REQUESTS_PER_WINDOW - c) in
  out.1 = replicate (room `min` length times) next
          ++ replicate (length times - room) too_many_requests ∧
  out.2 !! key
    = Some (Entry (Z.min MAX_REQUESTS_PER_WINDOW (c + Z.of_nat (length times))) ws).
Proof.
  induction times as [|t times IH]; intros m c Hm Hc Hwin; cbv zeta.
  - simpl. rewrite Nat.min_0_r. simpl. split; [done|].
    rewrite Hm. f_equal. f_equal. lia.
  - apply Forall_cons in Hwin as [Ht Hwin].
    destruct (decide (c < MAX_REQUESTS_PER_WINDOW)) as [Hlt|Hge].
    + destruct (rateLimit_increments key t m (Entry c ws)) as [Hv Hm1];
        [done | done | done |].
      simpl. destruct (rateLimit key t m) as [v m1]. simpl in Hv, Hm1. subst v.
      destruct (IH m1 (c + 1) Hm1 ltac:(lia) Hwin) as [Hvs Hm2].
      destruct (rateLimit_all _ m1) as [vs m2]. simpl in *.
      replace (Z.to_nat (MAX_REQUESTS_PER_WINDOW - c))
        with (S (Z.to_nat (MAX_REQUESTS_PER_WINDOW - (c + 1)))) by lia.
      simpl. rewrite Hvs, Hm2. split; [done|]. f_equal. f_equal. lia.
    + destruct (rateLimit_denies key t m (Entry c ws)) as [Hv Hm1];
        [done | done | simpl; lia |].
      simpl. destruct (rateLimit key t m) as [v m1]. simpl in Hv, Hm1. subst v.
      destruct (IH m1 c Hm1 Hc Hwin) as [Hvs Hm2].
      destruct (rateLimit_all _ m1) as [vs m2]. simpl in *.
      replace (Z.to_nat (MAX_REQUESTS_PER_WINDOW - c)) with 0%nat in * by lia.
      simpl in *. rewrite Nat.sub_0_r in Hvs. rewrite Hvs, Hm2.
      split; [done|]. f_equal. f_equal. lia.
Qed.

Lemma window_quota_witness :
  (rateLimit_all (map (λ t, ("a"%string, t)) [10; 20; 30; 40])
     {[ "a"%string := Entry 18 0 ]}).1
  = [next; next; too_many_requests; too_many_requests].
Proof.
  refine (proj1 (window_quota "a" 0 [10; 20; 30; 40]
                   {[ "a"%string := Entry 18 0 ]} 18 _ _ _)).
  - vm_compute. reflexivity.
  - vm_compute. discriminate.
  - repeat constructor; vm_compute; discriminate.
Defined.

(** X3. The traffic of other identities does not touch an identity's
    quota: over any run of calls, by whatever keys, at times within
    [RATE_LIMIT_WINDOW_MS] of the start [ws] of the entry of [key], that
    entry survives every sweep, keeps [ws], and its count grows by the
    number of calls made with [key] itself, up to 20. *)
Theorem quota_isolated key ws (calls : list (string * Z)) : ∀ (m : table) c,
  m !! key = Some (Entry c ws) →
  c ≤ MAX_REQUESTS_PER_WINDOW →
  Forall (λ kt, kt.2 - ws ≤ RATE_LIMIT_WINDOW_MS) calls →
  (rateLimit_all calls m).2 !! key
  = Some (Entry (Z.min MAX_REQUESTS_PER_WINDOW
                   (c + Z.of_nat (length (filter (λ kt, kt.1 = key) calls))))
            ws).
Proof.
  induction calls as [|[k t] calls IH]; intros m c Hm Hc Hwin.
  - simpl. rewrite Hm. f_equal. f_equal. lia.
  - apply Forall_cons in Hwin as [Ht Hwin]. simpl in Ht.
    assert (∃ c1, (rateLimit k t m).2 !! key = Some (Entry c1 ws) ∧
                  c1 ≤ MAX_REQUESTS_PER_WINDOW ∧
                  Z.min MAX_REQUESTS_PER_WINDOW
                    (c1 + Z.of_nat (length (filter (λ kt, kt.1 = key) calls)))
                  = Z.min MAX_REQUESTS_PER_WINDOW
                      (c + Z.of_nat (length (filter (λ kt, kt.1 = key)
                                               ((k, t) :: calls)))))
      as (c1 & Hm1 & Hc1 & Heq).
    { destruct (decide (k = key)) as [->|Hne].
      - rewrite filter_cons_True by done. simpl length.
        destruct (decide (c < MAX_REQUESTS_PER_WINDOW)) as [Hlt|Hge].
        + destruct (rateLimit_increments key t m (Entry c ws)) as [_ Hm1];
            [done | done | done |].
          exists (c + 1). simpl in Hm1. split; [done|]. lia.
        + destruct (rateLimit_denies key t m (Entry c ws)) as [_ Hm1];
            [done | done | simpl; lia |].
          exists c. split; [done|]. lia.
      - rewrite filter_cons_False by done.
        exists c. rewrite rateLimit_other by done. split; [|done].
        apply cleanup_keeps_live; [done|].
        unfold expired. apply bool_decide_eq_false_2. simpl. lia. }
    simpl. destruct (rateLimit k t m) as [v m1]. simpl in Hm1.
    specialize (IH m1 c1 Hm1 Hc1 Hwin).
    destruct (rateLimit_all calls m1) as [vs m2]. simpl in *.
    rewrite IH. f_equal. f_equal. exact Heq.
Qed.

Lemma quota_isolated_witness :
  (rateLimit_all [("b", 5); ("a", 7); ("c", 9)]%string
     {[ "a"%string := Entry 19 0 ]}).2 !! "a"%string
  = Some (Entry 20 0).
Proof.
  refine (quota_isolated "a" 0 [("b", 5); ("a", 7); ("c", 9)]%string
            {[ "a"%string := Entry 19 0 ]} 19 _ _ _).
  - vm_compute. reflexivity.
  - vm_compute. discriminate.
  - repeat constructor; vm_compute; discriminate.
Defined.

(** ** Startup of the alerts file *)

(** X4. [initAlertsFile] returns normally on every disk: whatever the
    state of the directory and the file, and whether or not [mkdirSync]
    and [writeFileSync] go through, no exception leaves it. *)
Theorem initAlertsFile_never_throws d : (initAlertsFile d).1 = Ok tt.
Proof.
  destruct d as [[| | |[text|v]] [] [] tr]; try reflexivity;
    destruct v; reflexivity.
Qed.

(** X5. On a disk that lets [mkdirSync] and [writeFileSync] through and
    whose file, if there, can be read, [initAlertsFile] leaves a file
    that holds a JSON array: the array that was there, and the empty
    one when the directory or the file was missing or the text was not
    a JSON array. *)
Theorem initAlertsFile_establishes_array d :
  mkdir_ok d = true → write_ok d = true → store d ≠ Unreadable →
  store (initAlertsFile d).2 = File (Document (JArr (kept (store d)))).
Proof.
  destruct d as [[| | |[text|v]] mk wr tr]; simpl; intros -> -> Hst;
    try reflexivity; try done.
  destruct v; reflexivity.
Qed.

Lemma initAlertsFile_establishes_array_witness :
  store (initAlertsFile (Disk NoDir true true [])).2
  = File (Document (JArr [])).
Proof.
  refine (initAlertsFile_establishes_array (Disk NoDir true true []) _ _ _).
  - reflexivity.
  - reflexivity.
  - discriminate.
Defined.

(** X6. A file that already holds a JSON array is left alone by
    [initAlertsFile], on any disk: the only [fs] calls made are the two
    existence tests and one read, so nothing is created or written and
    the records stay as they are. *)
Theorem initAlertsFile_keeps_array d items :
  store d = File (Document (JArr items)) →
  store (initAlertsFile d).2 = File (Document (JArr items)) ∧
  trace (initAlertsFile d).2 = Read :: ExistsFile :: ExistsDir :: trace d.
Proof.
  destruct d as [st mk wr tr]. simpl. intros ->. done.
Qed.

Lemma initAlertsFile_keeps_array_witness :
  store (initAlertsFile (Disk (File (Document (JArr [JNum (Finite 1)]))) false false [])).2
  = File (Document (JArr [JNum (Finite 1)])).
Proof.
  refine (proj1 (initAlertsFile_keeps_array
                   (Disk (File (Document (JArr [JNum (Finite 1)]))) false false [])
                   [JNum (Finite 1)] _)).
  reflexivity.
Defined.

(** X7. Running [initAlertsFile] a second time changes nothing on disk:
    on every disk the directory and file after two runs are those after
    one. *)
Theorem initAlertsFile_twice d :
  store (initAlertsFile (initAlertsFile d).2).2 = store (initAlertsFile d).2.
Proof.
  destruct d as [[| | |[text|v]] [] [] tr]; try reflexivity;
    destruct v; reflexivity.
Qed.

(** ** Reading and writing *)

(** X8. [writeAlertsSafe] never throws.  When it returns [true] the
    next [readAlertsSafe] gives the value as [JSON.stringify] wrote it:
    every infinity in it replaced by [null] and every [-0] by [0], so
    the value itself when it holds no such number, and in any case a
    value that holds none.  When it returns [false] the directory and
    the file are as they were. *)
Theorem writeAlertsSafe_roundtrip alerts d :
  let d1 := (writeAlertsSafe alerts d).2 in
  (∃ success, (writeAlertsSafe alerts d).1 = Ok success ∧
     if success then (readAlertsSafe d1).1 = Ok (as_written alerts)
     else store d1 = store d) ∧
  plain (as_written alerts) = true ∧
  (plain alerts = true → as_written alerts = alerts).
Proof.
  cbv zeta. split; [|split; [apply plain_as_written | apply as_written_plain]].
  rewrite writeAlertsSafe_eq. cbv zeta.
  destruct (store d) eqn:Hst.
  - by exists false.
  - destruct (write_ok d); [exists true | by exists false].
    split; [done|]. by rewrite readAlertsSafe_eq.
  - by exists false.
  - destruct (write_ok d); [exists true | by exists false].
    split; [done|]. by rewrite readAlertsSafe_eq.
Qed.

(** X9. [readAlertsSafe] only reads: it makes one [readFileSync] call
    and no other, leaves the disk as it was, and so gives the same
    value when called again. *)
Theorem readAlertsSafe_repeatable d :
  let d1 := (readAlertsSafe d).2 in
  store d1 = store d ∧ trace d1 = Read :: trace d ∧
  (readAlertsSafe d1).1 = (readAlertsSafe d).1.
Proof.
  cbv zeta. by rewrite !readAlertsSafe_eq.
Qed.

(** X10. What [readAlertsSafe] returns is an array except in one case:
    the file is there, readable, and its text is JSON for something
    that is not an array; that value is then returned as it is. *)
Theorem readAlertsSafe_array_unless d :
  ∃ v, (readAlertsSafe d).1 = Ok v ∧
    Array_isArray v
    = negb (match store d with
            | File c => parses_to_non_array c
            | _ => false
            end).
Proof.
  rewrite readAlertsSafe_eq. eexists. split; [done|].
  destruct (store d) as [| | |[text|v]]; try reflexivity.
  simpl. by rewrite negb_involutive.
Qed.

(** ** Runs of requests *)

Section ServeFacts.
Variable hashIp : string → string.

Lemma post_alert_not_429 body iso d :
  refused (answer (post_alert body iso d).1) = false.
Proof.
  unfold post_alert. destruct (rejected body); [done|].
  unfold bind. by destruct (appendOne _ d) as [[[|]|e] d'].
Qed.

Lemma post_api_alert_limiter req now iso s :
  rateLimitMap (post_api_alert hashIp req now iso s).2
    = (rateLimiter hashIp req now (rateLimitMap s)).2 ∧
  refused (post_api_alert hashIp req now iso s).1
    = negb (allowed (rateLimiter hashIp req now (rateLimitMap s)).1).
Proof.
  unfold post_api_alert.
  destruct (rateLimiter hashIp req now (rateLimitMap s)) as [[|] m]; simpl;
    [|done].
  pose proof (post_alert_not_429 (req_body req) iso (fs s)) as H.
  by destruct (post_alert (req_body req) iso (fs s)) as [r d].
Qed.

(** The entry of an address over a run of its own requests inside its
    window. *)
Lemma serve_same_ip_entry ip ws (calls : list call) : ∀ s c,
  rateLimitMap s !! hashIp ip = Some (Entry c ws) →
  c ≤ MAX_REQUESTS_PER_WINDOW →
  Forall (λ cl, req_ip (call_req cl) = ip
                ∧ call_now cl - ws ≤ RATE_LIMIT_WINDOW_MS) calls →
  rateLimitMap (serve hashIp calls s).2 !! hashIp ip
  = Some (Entry (Z.min MAX_REQUESTS_PER_WINDOW (c + Z.of_nat (length calls))) ws).
Proof.
  induction calls as [|cl calls IH]; intros s c Hm Hc Hall.
  - simpl. rewrite Hm. f_equal. f_equal. lia.
  - apply Forall_cons in Hall as [[Hip Ht] Hall]. simpl.
    destruct (post_api_alert_limiter (call_req cl) (call_now cl) (call_iso cl) s)
      as [Hs1 _].
    unfold rateLimiter in Hs1. rewrite Hip in Hs1.
    destruct (post_api_alert _ _ _ _ s) as [r s1]. simpl in Hs1.
    assert (∃ c1, rateLimitMap s1 !! hashIp ip = Some (Entry c1 ws) ∧
                  c1 ≤ MAX_REQUESTS_PER_WINDOW ∧
                  Z.min MAX_REQUESTS_PER_WINDOW (c1 + Z.of_nat (length calls))
                  = Z.min MAX_REQUESTS_PER_WINDOW
                      (c + Z.of_nat (S (length calls))))
      as (c1 & Hm1 & Hc1 & Heq).
    { rewrite Hs1.
      destruct (decide (c < MAX_REQUESTS_PER_WINDOW)) as [Hlt|Hge].
      - destruct (rateLimit_increments (hashIp ip) (call_now cl)
                    (rateLimitMap s) (Entry c ws)) as [_ H1];
          [done | done | done |].
        exists (c + 1). split; [done|]. lia.
      - destruct (rateLimit_denies (hashIp ip) (call_now cl)
                    (rateLimitMap s) (Entry c ws)) as [_ H1];
          [done | done | simpl; lia |].
        exists c. split; [done|]. lia. }
    specialize (IH s1 c1 Hm1 Hc1 Hall).
    destruct (serve hashIp calls s1) as [rs s2]. simpl in *.
    rewrite IH. f_equal. f_equal. exact Heq.
Qed.

(** X12. Requests that reach the route count against the quota
    whether or not they are saved: when an address opens a window at
    [ws] and 19 or more further requests of it reach the route within
    [RATE_LIMIT_WINDOW_MS] of [ws], whatever the handler's test makes
    of their bodies and on whatever disk, its next request inside the
    window is answered 429 without any [fs] call, even if that request
    is well formed. *)
Theorem quota_spent_by_any_body ip ws (first last_one : call)
    (others : list call) s :
  (∀ e, rateLimitMap s !! hashIp ip = Some e →
        ws - start e > RATE_LIMIT_WINDOW_MS) →
  req_ip (call_req first) = ip → call_now first = ws →
  Forall (λ cl, req_ip (call_req cl) = ip
                ∧ call_now cl - ws ≤ RATE_LIMIT_WINDOW_MS) others →
  (19 ≤ length others)%nat →
  req_ip (call_req last_one) = ip →
  call_now last_one - ws ≤ RATE_LIMIT_WINDOW_MS →
  let s20 := (serve hashIp (first :: others) s).2 in
  let out := post_api_alert hashIp (call_req last_one) (call_now last_one)
               (call_iso last_one) s20 in
  out.1 = TooManyRequests ∧ fs out.2 = fs s20.
Proof.
  intros Hfresh Hip1 Hnow1 Hall Hlen Hip2 Hnow2.
  assert (rateLimitMap (serve hashIp (first :: others) s).2 !! hashIp ip
          = Some (Entry 20 ws)) as Hfull.
  { simpl.
    destruct (post_api_alert_limiter (call_req first) (call_now first)
                (call_iso first) s) as [Hs1 _].
    subst ws. unfold rateLimiter in Hs1. rewrite Hip1 in Hs1.
    destruct (rateLimit_restarts (hashIp ip) _ (rateLimitMap s) Hfresh)
      as [_ Hone].
    rewrite <- Hs1 in Hone.
    destruct (post_api_alert _ _ _ _ s) as [r s1]. simpl in Hone.
    pose proof (serve_same_ip_entry ip _ others s1 1 Hone
                  ltac:(unfold MAX_REQUESTS_PER_WINDOW; lia) Hall) as Hent.
    destruct (serve hashIp others s1) as [rs s2]. simpl in *.
    rewrite Hent. f_equal. f_equal. unfold MAX_REQUESTS_PER_WINDOW. lia. }
  intros s20 out. fold s20 in Hfull.
  destruct (rateLimit_denies (hashIp ip) (call_now last_one) (rateLimitMap s20)
              (Entry 20 ws)) as [Hdeny _];
    [done | done | simpl; unfold MAX_REQUESTS_PER_WINDOW; lia |].
  subst out. unfold post_api_alert, rateLimiter. rewrite Hip2.
  destruct (rateLimit (hashIp ip) (call_now last_one) (rateLimitMap s20))
    as [v m]. simpl in Hdeny. subst v. done.
Qed.

End ServeFacts.

Lemma quota_spent_by_any_body_witness :
  (post_api_alert tagged (Request "10.0.0.1" port_scan) 100 iso0
     (serve tagged
        (Call (Request "10.0.0.1" (JArr [])) 0 iso0
         :: replicate 19 (Call (Request "10.0.0.1" blank_alert) 5 iso0))
        (Server ∅ (Disk NoDir false false []))).2).1
  = TooManyRequests.
Proof.
  refine (proj1 (quota_spent_by_any_body tagged "10.0.0.1" 0
            (Call (Request "10.0.0.1" (JArr [])) 0 iso0)
            (Call (Request "10.0.0.1" port_scan) 100 iso0)
            (replicate 19 (Call (Request "10.0.0.1" blank_alert) 5 iso0))
            (Server ∅ (Disk NoDir false false [])) _ _ _ _ _ _ _)).
  - intros e He. simpl in He. by rewrite lookup_empty in He.
  - reflexivity.
  - reflexivity.
  - repeat constructor; vm_compute; discriminate.
  - vm_compute. lia.
  - reflexivity.
  - vm_compute. discriminate.
Defined.

(** ** Runs on a disk in order *)

Lemma rewritten_nil items : rewritten items [] = items.
Proof. done. Qed.

Lemma rewritten_app items (new more : list JSON) :
  rewritten (rewritten items new) more = rewritten items (new ++ more).
Proof.
  destruct new as [|x new]; [done|].
  destruct more as [|y more]; [by rewrite app_nil_r|].
  change (rewritten items ((x :: new) ++ y :: more))
    with (map as_written (items ++ (x :: new) ++ y :: more)).
  unfold rewritten.
  rewrite (map_app as_written (map as_written (items ++ x :: new)) (y :: more)).
  rewrite map_as_written_idem.
  rewrite <- (map_app as_written (items ++ x :: new) (y :: more)).
  by rewrite <- app_assoc.
Qed.

Lemma rewritten_length items (new : list JSON) :
  length (rewritten items new) = (length items + length new)%nat.
Proof.
  destruct new as [|x new]; simpl; [lia|].
  by rewrite length_map, length_app.
Qed.

Lemma rewritten_plain items (new : list JSON) :
  forallb plain (items ++ new) = true → rewritten items new = items ++ new.
Proof.
  intros Hpl. destruct new as [|x new]; [by rewrite app_nil_r|].
  by apply map_as_written_plain.
Qed.

Section HealthyRuns.
Variable hashIp : string → string.

(** One request on a file that holds an array, with the write going
    through. *)
Lemma post_healthy_step c s items :
  store (fs s) = File (Document (JArr items)) → write_ok (fs s) = true →
  let out := post_api_alert hashIp (call_req c) (call_now c) (call_iso c) s in
  out.1 = healthy_answer c
            (rateLimiter hashIp (call_req c) (call_now c) (rateLimitMap s)).1 ∧
  store (fs out.2)
    = File (Document (JArr (rewritten items (saved c out.1)))) ∧
  write_ok (fs out.2) = true.
Proof.
  intros Hst Hw. cbv zeta.
  destruct (rateLimiter hashIp (call_req c) (call_now c) (rateLimitMap s))
    as [v m] eqn:Hlim.
  destruct v; simpl.
  - destruct (rejected (req_body (call_req c))) eqn:Hrej.
    + unfold post_api_alert, post_alert. by rewrite Hlim, Hrej.
    + rewrite (post_api_alert_saves hashIp (call_req c) (call_now c)
                 (call_iso c) s (Document (JArr items)) Hrej
                 ltac:(by rewrite Hlim) Hst eq_refl Hw).
      done.
  - unfold post_api_alert. by rewrite Hlim.
Qed.

Lemma serve_healthy (calls : list call) : ∀ s items,
  store (fs s) = File (Document (JArr items)) → write_ok (fs s) = true →
  let out := serve hashIp calls s in
  out.1 = zip_with healthy_answer calls
            (rateLimit_all (limiter_calls hashIp calls) (rateLimitMap s)).1 ∧
  store (fs out.2)
    = File (Document
              (JArr (rewritten items (concat (zip_with saved calls out.1))))).
Proof.
  induction calls as [|c calls IH]; intros s items Hst Hw; cbv zeta.
  - done.
  - simpl.
    destruct (post_healthy_step c s items Hst Hw) as (Hr & Hst1 & Hw1).
    destruct (post_api_alert_limiter hashIp (call_req c) (call_now c)
                (call_iso c) s) as [Hm1 _].
    unfold rateLimiter in Hr, Hm1.
    destruct (post_api_alert _ _ _ _ s) as [r s1].
    destruct (rateLimit _ (call_now c) (rateLimitMap s)) as [v m1].
    simpl in Hr, Hst1, Hw1, Hm1. subst m1.
    destruct (IH s1 _ Hst1 Hw1) as [IHr IHst].
    destruct (serve hashIp calls s1) as [rs s2].
    destruct (rateLimit_all _ (rateLimitMap s1)) as [vs m2].
    simpl in *. rewrite IHst, rewritten_app. by subst r rs.
Qed.



Lemma initAlertsFile_healthy d :
  mkdir_ok d = true → write_ok d = true → store d ≠ Unreadable →
  store (initAlertsFile d).2 = File (Document (JArr (kept (store d)))) ∧
  write_ok (initAlertsFile d).2 = true.
Proof.
  destruct d as [[| | |[text|v]] mk wr tr]; simpl; intros -> -> Hst;
    try done.
  by destruct v.
Qed.

(** X14. From startup on a disk that lets [mkdirSync] and
    [writeFileSync] through: whatever was on disk (no directory, no
    file, text that is not a JSON array, or an array), after any run of
    requests the file holds an array with the records that were there,
    if any, followed by one record for each saved request in the order
    served; no request is answered with an error other than 400 or
    429.  The records are as [JSON.stringify] writes them once a
    request has been saved, which for records that hold no infinity and
    no [-0] means the old records followed by the stamped bodies. *)
Theorem startup_then_serve (calls : list call) d :
  mkdir_ok d = true → write_ok d = true → store d ≠ Unreadable →
  let out := serve hashIp calls (startup d) in
  let new := concat (zip_with saved calls out.1) in
  store (fs out.2) = File (Document (JArr (rewritten (kept (store d)) new))) ∧
  length (rewritten (kept (store d)) new)
    = (length (kept (store d)) + length new)%nat ∧
  (forallb plain (kept (store d) ++ new) = true →
   rewritten (kept (store d)) new = kept (store d) ++ new) ∧
  out.1 = zip_with healthy_answer calls
            (rateLimit_all (limiter_calls hashIp calls) ∅).1 ∧
  Forall (λ r, r = AlertSaved ∨ r = InvalidInput ∨ r = TooManyRequests) out.1.
Proof.
  intros Hmk Hw Hst. cbv zeta.
  destruct (initAlertsFile_healthy d Hmk Hw Hst) as [Hst0 Hw0].
  destruct (serve_healthy calls (startup d) _ Hst0 Hw0) as [Hr Hfile].
  simpl in Hr. split; [done|].
  split; [apply rewritten_length|]. split; [apply rewritten_plain|].
  split; [done|].
  rewrite Hr. clear. generalize (rateLimit_all (limiter_calls hashIp calls) ∅).1.
  induction calls as [|c calls IH]; intros [|v vs]; simpl; try constructor.
  - unfold healthy_answer. destruct v; [|tauto].
    destruct (rejected _); tauto.
  - apply IH.
Qed.

End HealthyRuns.


Lemma startup_then_serve_witness :
  store (fs (serve tagged [Call (Request "10.0.0.1" port_scan) 2 iso0]
               (startup (Disk (File (Garbled "{oops")) true true []))).2)
  = File (Document (JArr [assign port_scan "time" (JStr iso0)])).
Proof.
  refine (proj1 (startup_then_serve tagged
            [Call (Request "10.0.0.1" port_scan) 2 iso0]
            (Disk (File (Garbled "{oops")) true true []) _ _ _)).
  - reflexivity.
  - reflexivity.
  - discriminate.
Defined.

(** ** Requests on a disk that fails *)

Lemma appendOne_refused alert d :
  reads_as_array (store d) = true → write_refused d = true →
  (appendOne alert d).1 = Ok false ∧
  store (appendOne alert d).2 = store d ∧
  write_ok (appendOne alert d).2 = write_ok d.
Proof.
  unfold reads_as_array, write_refused, appendOne, bind.
  rewrite readAlertsSafe_eq.
  destruct d as [[| | |[text|v]] mk wr tr]; simpl; intros Harr Hw;
    try done.
  - by apply negb_true_iff in Hw as ->.
  - by apply negb_true_iff in Hw as ->.
  - destruct v; try discriminate. by apply negb_true_iff in Hw as ->.
Qed.

Section FailingDisk.
Variable hashIp : string → string.

(** X15. When the limiter lets a well-formed request through but the
    disk refuses the write (no directory, a path that cannot be
    written, or a write that fails), the answer is 500
    [Failed to save alert] and the directory and the file are as they
    were: nothing of the record is kept. *)
Theorem save_failure_keeps_file req now iso s :
  rejected (req_body req) = false →
  (rateLimiter hashIp req now (rateLimitMap s)).1 = next →
  reads_as_array (store (fs s)) = true →
  write_refused (fs s) = true →
  let out := post_api_alert hashIp req now iso s in
  out.1 = SaveFailed ∧ store (fs out.2) = store (fs s).
Proof.
  intros Hrej Hadm Harr Hw. cbv zeta. unfold post_api_alert.
  destruct (rateLimiter hashIp req now (rateLimitMap s)) as [v m].
  simpl in Hadm. subst v. unfold post_alert. rewrite Hrej. unfold bind.
  destruct (appendOne_refused (assign (req_body req) "time" (JStr iso)) (fs s)
              Harr Hw) as (Hres & Hst & _).
  destruct (appendOne _ (fs s)) as [r d']. simpl in Hres, Hst. subst r.
  done.
Qed.

(** X16. When the file holds JSON for something that is not an array,
    a well-formed request that the limiter lets through makes the
    handler throw a [TypeError] at [existing.push]: the only [fs] call
    made is the read, nothing is written, and the file stays as it
    is. *)
Theorem non_array_file_breaks_post req now iso s c :
  rejected (req_body req) = false →
  (rateLimiter hashIp req now (rateLimitMap s)).1 = next →
  store (fs s) = File c → parses_to_non_array c = true →
  let out := post_api_alert hashIp req now iso s in
  out.1 = Uncaught TypeError ∧ fs out.2 = logged Read (fs s).
Proof.
  intros Hrej Hadm Hst Hc. cbv zeta. unfold post_api_alert.
  destruct (rateLimiter hashIp req now (rateLimitMap s)) as [v m].
  simpl in Hadm. subst v. unfold post_alert. rewrite Hrej.
  unfold bind, appendOne, bind. rewrite readAlertsSafe_eq, Hst.
  destruct c as [text|v]; [discriminate|].
  by destruct v.
Qed.

Lemma post_array_step c s items :
  store (fs s) = File (Document (JArr items)) →
  let out := post_api_alert hashIp (call_req c) (call_now c) (call_iso c) s in
  store (fs out.2) = File (Document (JArr (rewritten items (saved c out.1)))).
Proof.
  intros Hst. cbv zeta.
  destruct (write_ok (fs s)) eqn:Hw.
  - by destruct (post_healthy_step hashIp c s items Hst Hw) as (_ & ? & _).
  - unfold post_api_alert.
    destruct (rateLimiter hashIp (call_req c) (call_now c) (rateLimitMap s))
      as [[|] m]; simpl; [|done].
    unfold post_alert. destruct (rejected (req_body (call_req c))); [done|].
    unfold bind.
    destruct (appendOne_refused
                (assign (req_body (call_req c)) "time" (JStr (call_iso c)))
                (fs s)) as (Hres & Hst' & _).
    { by rewrite Hst. }
    { unfold write_refused. by rewrite Hst, Hw. }
    destruct (appendOne _ (fs s)) as [r d']. simpl in Hres, Hst'. subst r.
    simpl. by rewrite Hst', Hst.
Qed.

(** X17. The file only grows: over any run of requests on a file that
    holds an array, whether or not the disk takes the writes, the file
    ends as an array with the records it had, in their order, followed
    by one record for each request that was answered [alert saved], in
    the order served; a request answered anything else adds none and
    none is ever dropped.  If nothing was saved the records are
    untouched; otherwise each is as [JSON.stringify] writes it (an
    infinity as [null], [-0] as [0]), so records that hold no such
    number are kept exactly and the new ones are the stamped bodies. *)
Theorem file_only_grows (calls : list call) : ∀ s items,
  store (fs s) = File (Document (JArr items)) →
  let out := serve hashIp calls s in
  let new := concat (zip_with saved calls out.1) in
  store (fs out.2) = File (Document (JArr (rewritten items new))) ∧
  length (rewritten items new) = (length items + length new)%nat ∧
  (forallb plain (items ++ new) = true → rewritten items new = items ++ new).
Proof.
  intros s items Hst. cbv zeta.
  split; [|split; [apply rewritten_length | apply rewritten_plain]].
  revert s items Hst.
  induction calls as [|c calls IH]; intros s items Hst.
  - done.
  - simpl. pose proof (post_array_step c s items Hst) as Hst1.
    destruct (post_api_alert _ _ _ _ s) as [r s1]. simpl in Hst1.
    specialize (IH s1 _ Hst1).
    destruct (serve hashIp calls s1) as [rs s2]. simpl in *.
    by rewrite IH, rewritten_app.
Qed.

End FailingDisk.

Lemma save_failure_keeps_file_witness :
  (post_api_alert tagged (Request "10.0.0.1" port_scan) 0 iso0
     (Server ∅ (Disk (File (Document (JArr [JNum (Finite 1)]))) true false []))).1
  = SaveFailed.
Proof.
  refine (proj1 (save_failure_keeps_file tagged (Request "10.0.0.1" port_scan)
            0 iso0
            (Server ∅ (Disk (File (Document (JArr [JNum (Finite 1)]))) true false []))
            _ _ _ _)).
  - vm_compute. reflexivity.
  - vm_compute. reflexivity.
  - reflexivity.
  - reflexivity.
Defined.

Lemma non_array_file_breaks_post_witness :
  (post_api_alert tagged (Request "10.0.0.1" port_scan) 0 iso0
     (Server ∅ (Disk (File (Document JNull)) true true []))).1
  = Uncaught TypeError.
Proof.
  refine (proj1 (non_array_file_breaks_post tagged
            (Request "10.0.0.1" port_scan) 0 iso0
            (Server ∅ (Disk (File (Document JNull)) true true []))
            (Document JNull) _ _ _ _)).
  - vm_compute. reflexivity.
  - vm_compute. reflexivity.
  - reflexivity.
  - reflexivity.
Defined.

Lemma file_only_grows_witness :
  store (fs (serve tagged
               [Call (Request "10.0.0.1" port_scan) 0 iso0;
                Call (Request "10.0.0.1" blank_alert) 1 iso0]
               (Server ∅ (Disk (File (Document (JArr [JNum (Finite 1)]))) true false []))).2)
  = File (Document (JArr [JNum (Finite 1)])).
Proof.
  refine (proj1 (file_only_grows tagged
            [Call (Request "10.0.0.1" port_scan) 0 iso0;
             Call (Request "10.0.0.1" blank_alert) 1 iso0]
            (Server ∅ (Disk (File (Document (JArr [JNum (Finite 1)]))) true false []))
            [JNum (Finite 1)] _)).
  reflexivity.
Defined.

(** ** The test of the handler *)

(** X18. A body passes the handler's test exactly when it is an object
    whose [type] and [message] are strings and whose [severity] is the
    string LOW, MEDIUM or HIGH, spelled so: an array, a missing field, a
    number, or a severity in another case is answered 400. *)
Theorem rejected_iff body :
  rejected body = false ↔
  ∃ props t msg sev,
    body = JObj props ∧
    own_prop "type" props = Some (JStr t) ∧
    own_prop "message" props = Some (JStr msg) ∧
    own_prop "severity" props = Some (JStr sev) ∧
    (sev = "LOW" ∨ sev = "MEDIUM" ∨ sev = "HIGH")%string.
Proof.
  split.
  - intros (props & -> & Hty & Hmsg & Hsev)%not_rejected.
    destruct (own_prop "type" props) as [[]|] eqn:Ety; try discriminate.
    destruct (own_prop "message" props) as [[]|] eqn:Emsg; try discriminate.
    destruct (own_prop "severity" props) as [[]|] eqn:Esev; try discriminate.
    simpl in Hsev. apply bool_decide_eq_true in Hsev.
    unfold allowedSeverities in Hsev.
    rewrite !elem_of_cons, elem_of_nil in Hsev.
    eexists _, _, _, _. split_and!; try done. tauto.
  - intros (props & t & msg & sev & -> & Hty & Hmsg & Hsev & Hin).
    unfold rejected. simpl. rewrite Hty, Hmsg, Hsev. simpl.
    rewrite bool_decide_eq_true_2; [done|].
    unfold allowedSeverities. rewrite !elem_of_cons. tauto.
Qed.
